(** * flux: the Go-source generator of the builtin command

    A shallow embedding of [indirectType] and [constructValue] from
    [internal/cmd/builtin/cmd/generate.go].  The two functions walk a
    [reflect.Value] and build a [jen.Code] expression which, once rendered,
    is Go source for the value.

    The development has three layers:
    - [reflect]: the part of Go's reflection interface the program reads
      (kinds, type descriptors, values);
    - [jen]: the statement builder of package jennifer, as abstract syntax;
    - the two functions of the program, and the theorems about them.

    It goes on with the rest of the file: [walkDirs], the walk over the
    directories, and [generate], which writes one file per package and
    the file that imports them. *)

From Stdlib Require Import List String ZArith Bool Permutation Lia.
Import ListNotations.
Open Scope string_scope.
Open Scope list_scope.

Set Implicit Arguments.
Set Warnings "-register-all".

(* ================================================================= *)
(** ** Package reflect *)

Module reflect.

(** The kinds of Go's predeclared basic types. *)
Inductive ScalarKind : Type :=
| KBool
| KInt | KInt8 | KInt16 | KInt32 | KInt64
| KUint | KUint8 | KUint16 | KUint32 | KUint64 | KUintptr
| KFloat32 | KFloat64
| KComplex64 | KComplex128
| KString.

(** [reflect.Kind].  The seventeen scalar kinds are grouped under
    [Scalar]; the Go names are given to them just below. *)
Inductive Kind : Type :=
| Invalid
| Scalar (k : ScalarKind)
| Array | Chan | Func | Interface | Map | Ptr | Slice
| Struct
| UnsafePointer.

Definition Bool := Scalar KBool.
Definition Int := Scalar KInt.
Definition Int8 := Scalar KInt8.
Definition Int16 := Scalar KInt16.
Definition Int32 := Scalar KInt32.
Definition Int64 := Scalar KInt64.
Definition Uint := Scalar KUint.
Definition Uint8 := Scalar KUint8.
Definition Uint16 := Scalar KUint16.
Definition Uint32 := Scalar KUint32.
Definition Uint64 := Scalar KUint64.
Definition Uintptr := Scalar KUintptr.
Definition Float32 := Scalar KFloat32.
Definition Float64 := Scalar KFloat64.
Definition Complex64 := Scalar KComplex64.
Definition Complex128 := Scalar KComplex128.
Definition String := Scalar KString.

Definition ScalarKind_eq_dec (a b : ScalarKind) : {a = b} + {a <> b}.
Proof. decide equality. Defined.

Definition Kind_eq_dec (a b : Kind) : {a = b} + {a <> b}.
Proof. decide equality. apply ScalarKind_eq_dec. Defined.

Definition Kind_eqb (a b : Kind) : bool :=
  if Kind_eq_dec a b then true else false.

(** [Kind.String()], what the verb [%v] prints for a kind. *)
Definition Kind_String (k : Kind) : string :=
  match k with
  | Invalid => "invalid"
  | Scalar KBool => "bool"
  | Scalar KInt => "int"
  | Scalar KInt8 => "int8"
  | Scalar KInt16 => "int16"
  | Scalar KInt32 => "int32"
  | Scalar KInt64 => "int64"
  | Scalar KUint => "uint"
  | Scalar KUint8 => "uint8"
  | Scalar KUint16 => "uint16"
  | Scalar KUint32 => "uint32"
  | Scalar KUint64 => "uint64"
  | Scalar KUintptr => "uintptr"
  | Scalar KFloat32 => "float32"
  | Scalar KFloat64 => "float64"
  | Scalar KComplex64 => "complex64"
  | Scalar KComplex128 => "complex128"
  | Scalar KString => "string"
  | Array => "array"
  | Chan => "chan"
  | Func => "func"
  | Interface => "interface"
  | Map => "map"
  | Ptr => "ptr"
  | Slice => "slice"
  | Struct => "struct"
  | UnsafePointer => "unsafe.Pointer"
  end.

(** A value of one of the predeclared basic types: the constructor is the
    basic type, its argument the payload.  Integers are carried as [Z],
    floating-point numbers by their IEEE bit pattern, complex numbers by
    the bit patterns of their two parts. *)
Inductive Basic : Type :=
| B_bool (b : bool)
| B_int (n : Z) | B_int8 (n : Z) | B_int16 (n : Z)
| B_int32 (n : Z) | B_int64 (n : Z)
| B_uint (n : Z) | B_uint8 (n : Z) | B_uint16 (n : Z)
| B_uint32 (n : Z) | B_uint64 (n : Z) | B_uintptr (n : Z)
| B_float32 (bits : Z) | B_float64 (bits : Z)
| B_complex64 (re im : Z) | B_complex128 (re im : Z)
| B_string (s : string).

Definition Basic_Kind (b : Basic) : ScalarKind :=
  match b with
  | B_bool _ => KBool
  | B_int _ => KInt | B_int8 _ => KInt8 | B_int16 _ => KInt16
  | B_int32 _ => KInt32 | B_int64 _ => KInt64
  | B_uint _ => KUint | B_uint8 _ => KUint8 | B_uint16 _ => KUint16
  | B_uint32 _ => KUint32 | B_uint64 _ => KUint64
  | B_uintptr _ => KUintptr
  | B_float32 _ => KFloat32 | B_float64 _ => KFloat64
  | B_complex64 _ _ => KComplex64 | B_complex128 _ _ => KComplex128
  | B_string _ => KString
  end.

(** [reflect.Type], as far as the program reads it: [Kind()], [PkgPath()],
    [Name()], and [Key()] and [Elem()] for the kinds that have them.  A
    descriptor is a finite tree; the defined types that contain
    themselves have none and are dealt with in [Desc] further down.
    [pkg] and [name] are empty for a type
    that is not a defined (named) type; a predeclared basic type has an
    empty [pkg] and its kind's name. *)
Inductive Type_ : Type :=
| TScalar (k : ScalarKind) (pkg name : string)
| TArray (pkg name : string) (len : nat) (elem : Type_)
| TChan (pkg name : string) (elem : Type_)
| TFunc (pkg name : string)
| TInterface (pkg name : string)
| TMap (pkg name : string) (key elem : Type_)
| TPtr (pkg name : string) (elem : Type_)
| TSlice (pkg name : string) (elem : Type_)
| TStruct (pkg name : string)
| TUnsafePointer (pkg name : string).

Definition Type_Kind (t : Type_) : Kind :=
  match t with
  | TScalar k _ _ => Scalar k
  | TArray _ _ _ _ => Array
  | TChan _ _ _ => Chan
  | TFunc _ _ => Func
  | TInterface _ _ => Interface
  | TMap _ _ _ _ => Map
  | TPtr _ _ _ => Ptr
  | TSlice _ _ _ => Slice
  | TStruct _ _ => Struct
  | TUnsafePointer _ _ => UnsafePointer
  end.

Definition PkgPath (t : Type_) : string :=
  match t with
  | TScalar _ p _ | TArray p _ _ _ | TChan p _ _ | TFunc p _
  | TInterface p _ | TMap p _ _ _ | TPtr p _ _ | TSlice p _ _
  | TStruct p _ | TUnsafePointer p _ => p
  end.

Definition Name (t : Type_) : string :=
  match t with
  | TScalar _ _ n | TArray _ n _ _ | TChan _ n _ | TFunc _ n
  | TInterface _ n | TMap _ n _ _ | TPtr _ n _ | TSlice _ n _
  | TStruct _ n | TUnsafePointer _ n => n
  end.

(** The predeclared basic type of a scalar kind. *)
Definition basicType (k : ScalarKind) : Type_ :=
  TScalar k "" (Kind_String (Scalar k)).

(** [reflect.TypeOf] at a value of a basic type, the only use the program
    makes of it. *)
Definition TypeOf (b : Basic) : Type_ := basicType (Basic_Kind b).

(** A field of a struct value: the name [Type.Field(i).Name] gives it,
    whether [Value.Field(i).CanInterface()] holds, and the field's value. *)
Record StructField (V : Type) : Type := mkField {
  FieldName : string;
  CanInterface : bool;
  FieldValue : V
}.

(** [reflect.Value].  A value is a finite tree: each constructor carries
    what makes its type, and its contents.
    - [Zero] is the zero [Value], of kind [Invalid];
    - a scalar is a payload of the underlying basic type, of a type that
      may be a defined one;
    - for a slice, a map, a pointer and an interface, [None] is the nil
      value ([IsNil()] holds);
    - a map lists its entries in the order [MapKeys()] returns the keys,
      each key with the value [MapIndex] gives for it;
    - a struct lists its fields in declaration order. *)
Inductive Value : Type :=
| Zero
| VScalar (pkg name : string) (b : Basic)
| VArray (pkg name : string) (elemT : Type_) (elems : list Value)
| VChan (pkg name : string) (elemT : Type_)
| VFunc (pkg name : string)
| VInterface (pkg name : string) (held : option Value)
| VMap (pkg name : string) (keyT elemT : Type_)
       (entries : option (list (Value * Value)))
| VPtr (pkg name : string) (elemT : Type_) (pointee : option Value)
| VSlice (pkg name : string) (elemT : Type_) (elems : option (list Value))
| VStruct (pkg name : string) (fields : list (StructField Value))
| VUnsafePointer (pkg name : string).

(** [Value.Type()]; it panics on the zero Value, [None] here. *)
Definition Value_Type (v : Value) : option Type_ :=
  match v with
  | Zero => None
  | VScalar p n b => Some (TScalar (Basic_Kind b) p n)
  | VArray p n e elems => Some (TArray p n (List.length elems) e)
  | VChan p n e => Some (TChan p n e)
  | VFunc p n => Some (TFunc p n)
  | VInterface p n _ => Some (TInterface p n)
  | VMap p n k e _ => Some (TMap p n k e)
  | VPtr p n e _ => Some (TPtr p n e)
  | VSlice p n e _ => Some (TSlice p n e)
  | VStruct p n _ => Some (TStruct p n)
  | VUnsafePointer p n => Some (TUnsafePointer p n)
  end.

(** [Value.Kind()]. *)
Definition Value_Kind (v : Value) : Kind :=
  match Value_Type v with
  | Some t => Type_Kind t
  | None => Invalid
  end.

(** [Value.Convert(t)] on a scalar, for the conversions the program asks
    for: to a type of the value's own kind, which keeps the payload and
    changes the type.  Any other conversion is left out ([None]).  The
    result is given as [Value.Interface()] shows it: the dynamic type and
    the payload. *)
Definition Convert (b : Basic) (t : Type_) : option (Type_ * Basic) :=
  if Kind_eqb (Type_Kind t) (Scalar (Basic_Kind b))
  then Some (t, b) else None.

End reflect.

(* ================================================================= *)
(** ** Package jen *)

Module jen.

(** [jen.Code], the items a statement is made of.  A [*jen.Statement] is a
    list of items; each builder call appends one item to it.
    - [Tok_Op], [Tok_Qual], [Tok_Id], [Tok_Nil], [Tok_Lit] are the tokens
      that [Op], [Qual], [Id], [Nil] and [Lit] append;
    - [Grp_Index] and [Grp_Values] are the bracketed and the braced group
      that [Index] and [Values] append;
    - [DictOf] is a [jen.Dict], a Go map from [Code] to [Code].  Its keys
      are compared as pointers, and every key the program stores is a
      statement it has just built, so each assignment adds an entry.  A Go
      map keeps no order: the list holds the entries, and two lists that
      are permutations of one another are the same [Dict] (see
      [code_equiv] below). *)
Inductive Code : Type :=
| Stmt (items : list Code)
| Tok_Op (op : string)
| Tok_Qual (path name : string)
| Tok_Id (name : string)
| Tok_Nil
| Tok_Lit (v : reflect.Basic)
| Grp_Index (items : list Code)
| Grp_Values (items : list Code)
| DictOf (entries : list (Code * Code)).

Definition Statement : Type := list Code.
Definition Dict : Type := list (Code * Code).

Definition Op (op : string) : Statement := [Tok_Op op].
Definition Qual (path name : string) : Statement := [Tok_Qual path name].
Definition Id (name : string) : Statement := [Tok_Id name].
Definition Nil : Statement := [Tok_Nil].
Definition Index (items : list Code) : Statement := [Grp_Index items].

(** [s.Add(c)] and [s.Values(values...)]. *)
Definition Add (s : Statement) (c : Code) : Statement := s ++ [c].
Definition Values (s : Statement) (values : list Code) : Statement :=
  s ++ [Grp_Values values].

(** [values[key] = val] on a [Dict], for a key not yet in it. *)
Definition Dict_set (values : Dict) (key val : Code) : Dict :=
  values ++ [(key, val)].

(** [jen.Lit(v)] takes an [interface{}] and accepts the values whose
    dynamic type is one of the predeclared basic types; on any other it
    panics ([None]). *)
Definition Lit (v : reflect.Type_ * reflect.Basic) : option Statement :=
  let (t, b) := v in
  match t with
  | reflect.TScalar k pkg name =>
      if (pkg =? "") && (name =? reflect.Kind_String (reflect.Scalar k))
      then Some [Tok_Lit b] else None
  | _ => None
  end.

End jen.

(* ================================================================= *)
(** ** Results *)

(** What a Go function returning [(T, error)] does: it returns a value and
    a nil error, or no value and an error, or it panics.  An [error] is
    its message. *)
Definition error : Type := string.

Inductive result (A : Type) : Type :=
| Ok (a : A)
| Err (e : error)
| Panic.

Arguments Err {A} e.
Arguments Panic {A}.

Definition bind {A B : Type} (r : result A) (k : A -> result B) : result B :=
  match r with
  | Ok a => k a
  | Err e => Err e
  | Panic => Panic
  end.

Notation "x <- r ;; k" := (bind r (fun x => k))
  (at level 61, r at next level, right associativity).

(** The two components of the returned pair. *)
Definition result_value {A : Type} (r : result A) : option A :=
  match r with Ok a => Some a | _ => None end.

Definition result_error {A : Type} (r : result A) : option error :=
  match r with Err e => Some e | _ => None end.

(** A [for] loop over a list whose body may return early with an error:
    [st] is what the loop has built so far. *)
Definition forEach {A S : Type} (body : S -> A -> result S)
  : S -> list A -> result S :=
  fix loop (st : S) (l : list A) {struct l} : result S :=
    match l with
    | [] => Ok st
    | x :: rest => st' <- body st x ;; loop st' rest
    end.

(* ================================================================= *)
(** ** The program *)

Import reflect.

(** [types], the map from the scalar kinds to the basic types. *)
Definition types : list (Kind * Type_) :=
  [ (Bool, TypeOf (B_bool false));
    (Int, TypeOf (B_int 0));
    (Int8, TypeOf (B_int8 0));
    (Int16, TypeOf (B_int16 0));
    (Int32, TypeOf (B_int32 0));
    (Int64, TypeOf (B_int64 0));
    (Uint, TypeOf (B_uint 0));
    (Uint8, TypeOf (B_uint8 0));
    (Uint16, TypeOf (B_uint16 0));
    (Uint32, TypeOf (B_uint32 0));
    (Uint64, TypeOf (B_uint64 0));
    (Uintptr, TypeOf (B_uintptr 0));
    (Float32, TypeOf (B_float32 0));
    (Float64, TypeOf (B_float64 0));
    (Complex64, TypeOf (B_complex64 0 0));
    (Complex128, TypeOf (B_complex128 0 0));
    (String, TypeOf (B_string "")) ].

(** [types[k]]: the entry of the first pair with key [k]. *)
Fixpoint lookup (m : list (Kind * Type_)) (k : Kind) : option Type_ :=
  match m with
  | [] => None
  | (k', t) :: rest => if Kind_eqb k' k then Some t else lookup rest k
  end.

(** [indirectType] returns a code statement that represents the type
    expression for the given type. *)
Fixpoint indirectType (typ : Type_) : jen.Statement :=
  match typ with
  | TMap _ _ key elem =>
      let c := jen.Index [jen.Stmt (indirectType key)] in
      jen.Add c (jen.Stmt (indirectType elem))
  | TPtr _ _ elem =>
      let c := jen.Op "*" in
      jen.Add c (jen.Stmt (indirectType elem))
  | TArray _ _ _ elem | TSlice _ _ elem =>
      let c := jen.Index [] in
      jen.Add c (jen.Stmt (indirectType elem))
  | _ => jen.Qual (PkgPath typ) (Name typ)
  end.

(** The error of the default case. *)
Definition unsupported (k : Kind) : error :=
  String.append "unsupport value kind " (Kind_String k).

(** [constructValue] returns a Code value for the given value. *)
Fixpoint constructValue (v : Value) : result jen.Code :=
  match v with
  | VArray pkg name elemT elems =>
      let s := indirectType (TArray pkg name (List.length elems) elemT) in
      values <- forEach (fun values x =>
                  val <- constructValue x ;;
                  Ok (values ++ [val])) [] elems ;;
      Ok (jen.Stmt (jen.Values s values))
  | VSlice pkg name elemT None => Ok (jen.Stmt jen.Nil)
  | VSlice pkg name elemT (Some elems) =>
      let s := indirectType (TSlice pkg name elemT) in
      values <- forEach (fun values x =>
                  val <- constructValue x ;;
                  Ok (values ++ [val])) [] elems ;;
      Ok (jen.Stmt (jen.Values s values))
  | VInterface _ _ None => Ok (jen.Stmt jen.Nil)
  | VInterface _ _ (Some held) => constructValue held
  | VPtr _ _ _ None => Ok (jen.Stmt jen.Nil)
  | VPtr _ _ _ (Some pointee) =>
      let s := jen.Op "&" in
      val <- constructValue pointee ;;
      Ok (jen.Stmt (jen.Add s val))
  | VMap _ _ _ _ None => Ok (jen.Stmt jen.Nil)
  | VMap pkg name keyT elemT (Some entries) =>
      let s := indirectType (TMap pkg name keyT elemT) in
      values <- forEach (fun values (kv : Value * Value) =>
                  key <- constructValue (fst kv) ;;
                  val <- constructValue (snd kv) ;;
                  Ok (jen.Dict_set values key val)) [] entries ;;
      Ok (jen.Stmt (jen.Values s [jen.DictOf values]))
  | VStruct pkg name fields =>
      let typ := TStruct pkg name in
      let s := indirectType typ in
      values <- forEach (fun values (field : StructField Value) =>
                  if negb (CanInterface field) then Ok values
                  else
                    val <- constructValue (FieldValue field) ;;
                    Ok (jen.Dict_set values
                          (jen.Stmt (jen.Id (FieldName field))) val))
                  [] fields ;;
      Ok (jen.Stmt (jen.Values s [jen.DictOf values]))
  | VScalar _ _ b =>
      match lookup types (Value_Kind v) with
      | None => Panic
      | Some typ =>
          match Convert b typ with
          | None => Panic
          | Some cv =>
              match jen.Lit cv with
              | None => Panic
              | Some lit => Ok (jen.Stmt lit)
              end
          end
      end
  | _ => Err (unsupported (Value_Kind v))
  end.

(* ================================================================= *)
(** ** The walk over the directories *)

(** A Go function that returns [(T, error)] or an [error] and changes a
    state on its way: the state it leaves is the one reached when it
    returns, with or without an error.  A function that returns an
    [error] returns [Ok tt] for nil. *)
Definition M (St A : Type) : Type := St -> result A * St.

Definition ret {St A : Type} (a : A) : M St A := fun s => (Ok a, s).

Definition fail {St A : Type} (e : error) : M St A := fun s => (Err e, s).

Definition bindM {St A B : Type} (m : M St A) (k : A -> M St B) : M St B :=
  fun s =>
    match m s with
    | (Ok a, s') => k a s'
    | (Err e, s') => (Err e, s')
    | (Panic, s') => (Panic, s')
    end.

Notation "m >> k" := (bindM m (fun _ => k))
  (at level 62, right associativity).

(** What [ioutil.ReadDir] finds at a path: an error, or the files of the
    directory in the order it lists them, each with its [Name()] and, when
    [IsDir()] holds, what is found at that directory in turn. *)
Inductive Dir : Type :=
| Unreadable (err : error)
| Listing (files : list (string * option Dir)).

Section WalkDirs.

(** [filepath.Join] on two elements. *)
Variable filepath_Join : string -> string -> string.

(** The state the callback works on. *)
Variable St : Type.

(** [walkDirs] calls [f] on [path], then walks each directory listed
    under it.  [tree] is what [ReadDir] finds at [path]; the callback is
    taken not to add or remove directories under it (the one [generate]
    passes writes a regular file into the directory it is called on,
    after that directory has been listed). *)
Fixpoint walkDirs (tree : Dir) (path : string) (f : string -> M St unit)
  : M St unit :=
  match tree with
  | Unreadable err => fail err
  | Listing files =>
      f path >>
      (fix loop (files : list (string * option Dir)) : M St unit :=
         match files with
         | [] => ret tt
         | (name, Some sub) :: rest =>
             walkDirs sub (filepath_Join path name) f >> loop rest
         | (name, None) :: rest => loop rest
         end) files
  end.

(** The steps of a walk, in order: a call of the callback on a directory,
    or a [ReadDir] that fails. *)
Inductive Event : Type :=
| Visit (path : string)
| ReadError (err : error).

(** The steps of the walk of [tree], were none of them to fail: each
    directory before the directories under it, these in the order of the
    listing. *)
Fixpoint events (tree : Dir) (path : string) : list Event :=
  match tree with
  | Unreadable err => [ReadError err]
  | Listing files =>
      Visit path ::
      (fix under (files : list (string * option Dir)) : list Event :=
         match files with
         | [] => []
         | (name, Some sub) :: rest =>
             events sub (filepath_Join path name) ++ under rest
         | (name, None) :: rest => under rest
         end) files
  end.

Definition step (f : string -> M St unit) (ev : Event) : M St unit :=
  match ev with
  | Visit path => f path
  | ReadError err => fail err
  end.

(** The steps taken one after the other, up to the first that fails. *)
Fixpoint run (f : string -> M St unit) (evs : list Event) : M St unit :=
  match evs with
  | [] => ret tt
  | ev :: rest => step f ev >> run f rest
  end.

End WalkDirs.

(* ================================================================= *)
(** ** The generate command *)

(** A [jen.File], as far as [generate] builds it: the package name given
    to [NewFile], the header comments, the anonymous imports, and the
    declarations added to it, in order.
    - [FuncDecl name calls] is [Func().Id(name).Call().Block(...)] whose
      block holds calls [Qual(path, fn).Call(Id(arg))];
    - [VarDecl name value] is [Var().Id(name).Op("=").Add(value)]. *)
Inductive Decl : Type :=
| FuncDecl (name : string) (calls : list (string * string * string))
| VarDecl (name : string) (value : jen.Code).

Record File : Type := mkFile {
  FilePackage : string;
  HeaderComments : list string;
  Anons : list string;
  Decls : list Decl
}.

Definition NewFile (name : string) : File := mkFile name [] [] [].

Definition HeaderComment (c : string) (f : File) : File :=
  mkFile (FilePackage f) (HeaderComments f ++ [c]) (Anons f) (Decls f).

Definition Anon (paths : list string) (f : File) : File :=
  mkFile (FilePackage f) (HeaderComments f) (Anons f ++ paths) (Decls f).

Definition AddDecl (d : Decl) (f : File) : File :=
  mkFile (FilePackage f) (HeaderComments f) (Anons f) (Decls f ++ [d]).

(** What [generate] works on: the slice [goPackages] of its closure, and
    the calls of [File.Save] made so far, each with the file name and the
    file, whether the call returned an error or not. *)
Record GenState : Type := mkGenState {
  goPackages : list string;
  saves : list (string * File)
}.

Definition lift {St A : Type} (r : result A) : M St A := fun s => (r, s).

Notation "x <~ m ;; k" := (bindM m (fun x => k))
  (at level 61, m at next level, right associativity).

(** [errors.Wrapf(err, msg)]: nil when [err] is nil, and otherwise an
    error whose message is [msg], a colon and the message of [err]. *)
Definition Wrapf (err : option error) (msg : string) : option error :=
  match err with
  | None => None
  | Some e => Some (String.append msg (String.append ": " e))
  end.

Definition autogenerated : string :=
  "// DO NOT EDIT: This file is autogenerated via the builtin command.".

Section Generate.

(** The flags [--pkg], [--root-dir] and [--import-file]. *)
Variables pkgName rootDir importFile : string.

(** [ast.Package] and what the program does with a [*ast.Package]: it
    reads the field [Package], assigns the field [Path], and hands the
    pointer to [reflect.ValueOf], [ast.Check] and [ast.GetError]. *)
Variable Package : Type.
Variable Package_Package : Package -> string.
Variable set_Path : Package -> string -> Package.
Variable ValueOf : Package -> Value.
Variable Check : Package -> Z.
Variable GetError : Package -> option error.

(** [parser.ParseDir]: the packages of a directory by name, in the order
    [range] goes through the map. *)
Variable ParseDir : string -> result (list (string * Package)).

(** [path.Join], [path.Base], [filepath.Join] and [filepath.Rel] on two
    elements, and the quoting of the verb [%q]. *)
Variable path_Join : string -> string -> string.
Variable path_Base : string -> string.
Variable filepath_Join : string -> string -> string.
Variable filepath_Rel : string -> string -> result string.
Variable Quote : string -> string.

(** The error [File.Save] returns for a file name and a file, if any. *)
Variable SaveError : string -> File -> option error.

(** [f.Save(filename)]: the call is recorded and its error returned. *)
Definition Save (filename : string) (f : File) : M GenState unit :=
  fun s =>
    (match SaveError filename f with
     | None => Ok tt
     | Some e => Err e
     end,
     mkGenState (goPackages s) (saves s ++ [(filename, f)])).

(** The message for a directory with several packages; [%v] prints the
    keys between brackets, separated by spaces. *)
Definition multiplePackages (dir : string) (keys : list string) : error :=
  String.append "found multiple packages in the same directory: "
    (String.append dir
       (String.append " packages ["
          (String.append (String.concat " " keys) "]"))).

(** The file written for a package, given the expression of its AST. *)
Definition packageFileOf (pkg : Package) (v : jen.Code) : File :=
  AddDecl (VarDecl "pkgAST" v)
    (AddDecl (FuncDecl "init"
                [("github.com/influxdata/flux", "RegisterPackage", "pkgAST")])
       (HeaderComment autogenerated (NewFile (Package_Package pkg)))).

(** The callback [generate] passes to [walkDirs]. *)
Definition generateDir (dir : string) : M GenState unit :=
  pkgs <~ lift (ParseDir dir) ;;
  match pkgs with
  | [] => ret tt
  | [(_, pkg)] =>
      if (0 <? Check pkg)%Z then
        match Wrapf (GetError pkg)
                (String.append "failed to parse package "
                               (Quote (Package_Package pkg))) with
        | Some e => fail e
        | None => ret tt
        end
      else
        let pkgPath := path_Join pkgName dir in
        (if pkgPath =? pkgName then ret tt
         else fun s =>
                (Ok tt, mkGenState (goPackages s ++ [pkgPath]) (saves s))) >>
        path <~ lift (filepath_Rel rootDir dir) ;;
        let pkg := set_Path pkg path in
        v <~ lift (constructValue (ValueOf pkg)) ;;
        Save (filepath_Join dir "flux_gen.go") (packageFileOf pkg v)
  | _ => fail (multiplePackages dir (map fst pkgs))
  end.

(** The file that imports the generated packages. *)
Definition importFileOf (packages : list string) : File :=
  Anon packages (HeaderComment autogenerated (NewFile (path_Base pkgName))).

(** [generate], on what [ReadDir] finds at [rootDir].  The state is the
    list of the calls of [Save]. *)
Definition generate (tree : Dir) : M (list (string * File)) unit :=
  fun calls =>
    match walkDirs filepath_Join tree rootDir generateDir
                   (mkGenState [] calls) with
    | (Ok _, s) =>
        let (r, s') :=
          Save (filepath_Join rootDir importFile)
               (importFileOf (goPackages s)) s in
        (r, saves s')
    | (Err e, s) => (Err e, saves s)
    | (Panic, s) => (Panic, saves s)
    end.

(** The package of a directory that gets a file: the directory holds one
    package, and [ast.Check] finds no error in it. *)
Definition thePackage (dir : string) : option Package :=
  match ParseDir dir with
  | Ok [(_, pkg)] => if (0 <? Check pkg)%Z then None else Some pkg
  | _ => None
  end.

(** The call of [Save] made for a directory, if one is made: the file
    [flux_gen.go] of the directory, holding the expression
    [constructValue] returns for the package, its [Path] set to the path
    of the directory relative to the root. *)
Definition packageFile (dir : string) : option (string * File) :=
  match thePackage dir with
  | None => None
  | Some pkg =>
      match filepath_Rel rootDir dir with
      | Ok path =>
          match constructValue (ValueOf (set_Path pkg path)) with
          | Ok v =>
              Some (filepath_Join dir "flux_gen.go",
                    packageFileOf (set_Path pkg path) v)
          | _ => None
          end
      | _ => None
      end
  end.

(** The Go package a directory adds to the import file: the one of a
    directory that gets a file, unless it is the root package. *)
Definition imported (dir : string) : list string :=
  match thePackage dir with
  | None => []
  | Some _ =>
      if path_Join pkgName dir =? pkgName then []
      else [path_Join pkgName dir]
  end.

Definition savesOf (dirs : list string) : list (string * File) :=
  flat_map (fun d => match packageFile d with
                     | Some c => [c]
                     | None => []
                     end) dirs.

End Generate.

(* ================================================================= *)
(** ** Notions the statements are written with *)

(** A traversal that encodes every element of a list in order and stops
    at the first one that fails. *)
Fixpoint mapM {A B : Type} (f : A -> result B) (l : list A)
  : result (list B) :=
  match l with
  | [] => Ok []
  | x :: rest => y <- f x ;; ys <- mapM f rest ;; Ok (y :: ys)
  end.

(** The encoding of one map entry and of one struct field. *)
Definition encodeEntry (kv : Value * Value) : result (jen.Code * jen.Code) :=
  key <- constructValue (fst kv) ;;
  val <- constructValue (snd kv) ;;
  Ok (key, val).

Definition encodeField (f : StructField Value)
  : result (jen.Code * jen.Code) :=
  val <- constructValue (FieldValue f) ;;
  Ok (jen.Stmt (jen.Id (FieldName f)), val).

(** The kinds listed in the scalar case of the switch, as written there. *)
Definition scalar_case : list Kind :=
  [ Bool; Int; Int8; Int16; Int32; Int64;
    Uint; Uint8; Uint16; Uint32; Uint64; Uintptr;
    Float32; Float64; Complex64; Complex128; String ].

(** The kinds the switch has a case for. *)
Definition has_rule (k : Kind) : bool :=
  match k with
  | Array | Slice | Interface | Ptr | Map | Struct => true
  | _ => if in_dec Kind_eq_dec k scalar_case then true else false
  end.

(** The values [constructValue v] calls itself on, in the order of the
    calls: the elements of an array or a slice, each key of a map followed
    by its value, the pointee, the value an interface holds, and the
    fields of a struct that can be read. *)
Definition components (v : Value) : list Value :=
  match v with
  | VArray _ _ _ elems | VSlice _ _ _ (Some elems) => elems
  | VInterface _ _ (Some x) | VPtr _ _ _ (Some x) => [x]
  | VMap _ _ _ _ (Some entries) =>
      flat_map (fun kv : Value * Value => [fst kv; snd kv]) entries
  | VStruct _ _ fields => map (@FieldValue Value) (filter (@CanInterface Value) fields)
  | _ => []
  end.

(** Every component that can be reached has a kind with a rule: reached
    are the elements, the keys and values, the pointee of a non-nil
    pointer, the content of a non-nil interface, and the fields that can
    be read. *)
Fixpoint supported (v : Value) : bool :=
  match v with
  | VScalar _ _ _ => true
  | VArray _ _ _ elems => forallb supported elems
  | VSlice _ _ _ None => true
  | VSlice _ _ _ (Some elems) => forallb supported elems
  | VInterface _ _ None => true
  | VInterface _ _ (Some x) => supported x
  | VPtr _ _ _ None => true
  | VPtr _ _ _ (Some x) => supported x
  | VMap _ _ _ _ None => true
  | VMap _ _ _ _ (Some entries) =>
      forallb (fun kv : Value * Value =>
                 supported (fst kv) && supported (snd kv)) entries
  | VStruct _ _ fields =>
      forallb (fun f : StructField Value =>
                 negb (CanInterface f) || supported (FieldValue f)) fields
  | Zero | VChan _ _ _ | VFunc _ _ | VUnsafePointer _ _ => false
  end.

(** Every map the value contains, at any depth, is nil, empty or has one
    entry. *)
Fixpoint small_maps (v : Value) : bool :=
  match v with
  | VArray _ _ _ elems => forallb small_maps elems
  | VSlice _ _ _ (Some elems) => forallb small_maps elems
  | VInterface _ _ (Some x) => small_maps x
  | VPtr _ _ _ (Some x) => small_maps x
  | VMap _ _ _ _ (Some entries) =>
      (List.length entries <=? 1)%nat &&
      forallb (fun kv : Value * Value =>
                 small_maps (fst kv) && small_maps (snd kv)) entries
  | VStruct _ _ fields =>
      forallb (fun f : StructField Value => small_maps (FieldValue f)) fields
  | _ => true
  end.

(** Two runs on one value.  Between two runs the value is the same, and
    [MapKeys] may return the keys of each map in another order:
    [same_value v v'] holds when [v'] is [v] with the entries of its maps,
    at any depth, listed in another order. *)
Inductive same_value : Value -> Value -> Prop :=
| sv_Zero : same_value Zero Zero
| sv_Scalar p n b : same_value (VScalar p n b) (VScalar p n b)
| sv_Array p n t l l' :
    Forall2 same_value l l' ->
    same_value (VArray p n t l) (VArray p n t l')
| sv_Chan p n t : same_value (VChan p n t) (VChan p n t)
| sv_Func p n : same_value (VFunc p n) (VFunc p n)
| sv_Interface_nil p n :
    same_value (VInterface p n None) (VInterface p n None)
| sv_Interface p n x x' :
    same_value x x' ->
    same_value (VInterface p n (Some x)) (VInterface p n (Some x'))
| sv_Map_nil p n k t :
    same_value (VMap p n k t None) (VMap p n k t None)
| sv_Map p n k t es es1 es' :
    Permutation es es1 ->
    Forall2 (fun a b : Value * Value =>
               same_value (fst a) (fst b) /\ same_value (snd a) (snd b))
            es1 es' ->
    same_value (VMap p n k t (Some es)) (VMap p n k t (Some es'))
| sv_Ptr_nil p n t :
    same_value (VPtr p n t None) (VPtr p n t None)
| sv_Ptr p n t x x' :
    same_value x x' ->
    same_value (VPtr p n t (Some x)) (VPtr p n t (Some x'))
| sv_Slice_nil p n t :
    same_value (VSlice p n t None) (VSlice p n t None)
| sv_Slice p n t l l' :
    Forall2 same_value l l' ->
    same_value (VSlice p n t (Some l)) (VSlice p n t (Some l'))
| sv_Struct p n fs fs' :
    Forall2 (fun f f' : StructField Value =>
               FieldName f = FieldName f' /\
               CanInterface f = CanInterface f' /\
               same_value (FieldValue f) (FieldValue f'))
            fs fs' ->
    same_value (VStruct p n fs) (VStruct p n fs')
| sv_UnsafePointer p n :
    same_value (VUnsafePointer p n) (VUnsafePointer p n).

(** Two expressions that are the same up to the order in which the
    entries of their [Dict]s are listed, that is, the same expression. *)
Inductive code_equiv : jen.Code -> jen.Code -> Prop :=
| ce_Stmt l l' :
    Forall2 code_equiv l l' -> code_equiv (jen.Stmt l) (jen.Stmt l')
| ce_Op op : code_equiv (jen.Tok_Op op) (jen.Tok_Op op)
| ce_Qual path name :
    code_equiv (jen.Tok_Qual path name) (jen.Tok_Qual path name)
| ce_Id name : code_equiv (jen.Tok_Id name) (jen.Tok_Id name)
| ce_Nil : code_equiv jen.Tok_Nil jen.Tok_Nil
| ce_Lit v : code_equiv (jen.Tok_Lit v) (jen.Tok_Lit v)
| ce_Index l l' :
    Forall2 code_equiv l l' ->
    code_equiv (jen.Grp_Index l) (jen.Grp_Index l')
| ce_Values l l' :
    Forall2 code_equiv l l' ->
    code_equiv (jen.Grp_Values l) (jen.Grp_Values l')
| ce_Dict d d1 d' :
    Permutation d d1 ->
    Forall2 (fun a b : jen.Code * jen.Code =>
               code_equiv (fst a) (fst b) /\ code_equiv (snd a) (snd b))
            d1 d' ->
    code_equiv (jen.DictOf d) (jen.DictOf d').

(** The type expressions of the specification: a qualified name,
    [[K]V] for a map, [*P] for a pointer, [[]E] for an array or a
    slice. *)
Inductive TypeExpr : jen.Statement -> Prop :=
| TE_Qual path name : TypeExpr (jen.Qual path name)
| TE_Map k v :
    TypeExpr k -> TypeExpr v ->
    TypeExpr [jen.Grp_Index [jen.Stmt k]; jen.Stmt v]
| TE_Ptr p : TypeExpr p -> TypeExpr [jen.Tok_Op "*"; jen.Stmt p]
| TE_Seq e : TypeExpr e -> TypeExpr [jen.Grp_Index []; jen.Stmt e].

(** The statement that the composite literal of a map records the order
    in which the entries were met.  A [jen.Dict] is a Go map, so whatever
    reads an order off it gives one answer for two lists that hold the
    same entries. *)
Definition entry_order_recorded : Prop :=
  exists order_of : jen.Dict -> list (jen.Code * jen.Code),
    (forall d d', Permutation d d' -> order_of d = order_of d') /\
    forall p n k t entries d,
      constructValue (VMap p n k t (Some entries)) =
        Ok (jen.Stmt
              (jen.Values (indirectType (TMap p n k t)) [jen.DictOf d])) ->
      Forall2 (fun (kv : Value * Value) (e : jen.Code * jen.Code) =>
                 constructValue (fst kv) = Ok (fst e) /\
                 constructValue (snd kv) = Ok (snd e))
              entries (order_of d).

(** The values [IsNil()] holds of, seen through the interfaces that hold
    them. *)
Fixpoint is_nil (v : Value) : bool :=
  match v with
  | VSlice _ _ _ None | VMap _ _ _ _ None | VPtr _ _ _ None
  | VInterface _ _ None => true
  | VInterface _ _ (Some x) => is_nil x
  | _ => false
  end.

(** What a type expression keeps of a type: the qualified name of a type
    that is not a map, a pointer, an array or a slice, and for these the
    kind of container (one for arrays and slices) and what it keeps of
    the key and the element. *)
Inductive Shape : Type :=
| SName (path name : string)
| SMap (key elem : Shape)
| SPtr (elem : Shape)
| SSeq (elem : Shape).

Fixpoint shape (t : Type_) : Shape :=
  match t with
  | TMap _ _ key elem => SMap (shape key) (shape elem)
  | TPtr _ _ elem => SPtr (shape elem)
  | TArray _ _ _ elem | TSlice _ _ elem => SSeq (shape elem)
  | _ => SName (PkgPath t) (Name t)
  end.

(** The expressions [constructValue] builds: [nil], a literal, [&] before
    an expression, the type expression of a sequence before its elements,
    the type expression of a map before a [Dict] from expressions to
    expressions, a qualified name before a [Dict] from field names to
    expressions. *)
Inductive ValueExpr : jen.Code -> Prop :=
| VE_Nil : ValueExpr (jen.Stmt [jen.Tok_Nil])
| VE_Lit b : ValueExpr (jen.Stmt [jen.Tok_Lit b])
| VE_Addr c : ValueExpr c -> ValueExpr (jen.Stmt [jen.Tok_Op "&"; c])
| VE_Seq e cs :
    TypeExpr e -> Forall ValueExpr cs ->
    ValueExpr (jen.Stmt [jen.Grp_Index []; jen.Stmt e; jen.Grp_Values cs])
| VE_Map k t d :
    TypeExpr k -> TypeExpr t ->
    Forall (fun e : jen.Code * jen.Code =>
              ValueExpr (fst e) /\ ValueExpr (snd e)) d ->
    ValueExpr (jen.Stmt [jen.Grp_Index [jen.Stmt k]; jen.Stmt t;
                         jen.Grp_Values [jen.DictOf d]])
| VE_Struct path name d :
    Forall (fun e : jen.Code * jen.Code =>
              (exists field, fst e = jen.Stmt [jen.Tok_Id field]) /\
              ValueExpr (snd e)) d ->
    ValueExpr (jen.Stmt [jen.Tok_Qual path name;
                         jen.Grp_Values [jen.DictOf d]]).

(* ================================================================= *)
(** ** Types that contain themselves *)

(** A [Type_] is the finite unfolding of a [reflect.Type].  Go also has
    defined types that contain themselves through a slice, an array, a
    pointer or a map, such as [type T []T]: their [Elem()] leads back to
    the type, and no [Type_] stands for them.  Here a [reflect.Type] is a
    number, [Universe] gives the descriptor of each number, and [Key()]
    and [Elem()] give numbers. *)
Inductive Desc : Type :=
| DScalar (k : ScalarKind) (pkg name : string)
| DArray (pkg name : string) (len : nat) (elem : nat)
| DChan (pkg name : string) (elem : nat)
| DFunc (pkg name : string)
| DInterface (pkg name : string)
| DMap (pkg name : string) (key elem : nat)
| DPtr (pkg name : string) (elem : nat)
| DSlice (pkg name : string) (elem : nat)
| DStruct (pkg name : string)
| DUnsafePointer (pkg name : string).

Definition Universe : Type := nat -> Desc.

Definition Desc_PkgPath (d : Desc) : string :=
  match d with
  | DScalar _ p _ | DArray p _ _ _ | DChan p _ _ | DFunc p _
  | DInterface p _ | DMap p _ _ _ | DPtr p _ _ | DSlice p _ _
  | DStruct p _ | DUnsafePointer p _ => p
  end.

Definition Desc_Name (d : Desc) : string :=
  match d with
  | DScalar _ _ n | DArray _ n _ _ | DChan _ n _ | DFunc _ n
  | DInterface _ n | DMap _ n _ _ | DPtr _ n _ | DSlice _ n _
  | DStruct _ n | DUnsafePointer _ n => n
  end.

(** [indirectType] on the type of number [typ].  [depth] bounds how deep
    the calls may nest: [None] says that the call has not returned within
    that depth. *)
Fixpoint indirectType_in (U : Universe) (depth : nat) (typ : nat)
  : option jen.Statement :=
  match depth with
  | O => None
  | S depth =>
      match U typ with
      | DMap _ _ key elem =>
          match indirectType_in U depth key with
          | None => None
          | Some k =>
              let c := jen.Index [jen.Stmt k] in
              match indirectType_in U depth elem with
              | None => None
              | Some e => Some (jen.Add c (jen.Stmt e))
              end
          end
      | DPtr _ _ elem =>
          let c := jen.Op "*" in
          match indirectType_in U depth elem with
          | None => None
          | Some e => Some (jen.Add c (jen.Stmt e))
          end
      | DArray _ _ _ elem | DSlice _ _ elem =>
          let c := jen.Index [] in
          match indirectType_in U depth elem with
          | None => None
          | Some e => Some (jen.Add c (jen.Stmt e))
          end
      | d => Some (jen.Qual (Desc_PkgPath d) (Desc_Name d))
      end
  end.

(** The type of number [typ] unfolds to the finite tree [t]. *)
Inductive unfolds (U : Universe) : nat -> Type_ -> Prop :=
| u_Scalar typ k p n :
    U typ = DScalar k p n -> unfolds U typ (TScalar k p n)
| u_Array typ p n len elem e :
    U typ = DArray p n len elem -> unfolds U elem e ->
    unfolds U typ (TArray p n len e)
| u_Chan typ p n elem e :
    U typ = DChan p n elem -> unfolds U elem e ->
    unfolds U typ (TChan p n e)
| u_Func typ p n : U typ = DFunc p n -> unfolds U typ (TFunc p n)
| u_Interface typ p n :
    U typ = DInterface p n -> unfolds U typ (TInterface p n)
| u_Map typ p n key elem k e :
    U typ = DMap p n key elem -> unfolds U key k -> unfolds U elem e ->
    unfolds U typ (TMap p n k e)
| u_Ptr typ p n elem e :
    U typ = DPtr p n elem -> unfolds U elem e ->
    unfolds U typ (TPtr p n e)
| u_Slice typ p n elem e :
    U typ = DSlice p n elem -> unfolds U elem e ->
    unfolds U typ (TSlice p n e)
| u_Struct typ p n : U typ = DStruct p n -> unfolds U typ (TStruct p n)
| u_UnsafePointer typ p n :
    U typ = DUnsafePointer p n -> unfolds U typ (TUnsafePointer p n).

(** The height of a finite tree: the depth of the calls of
    [indirectType] on it. *)
Fixpoint height (t : Type_) : nat :=
  match t with
  | TMap _ _ key elem => S (Nat.max (height key) (height elem))
  | TPtr _ _ elem | TArray _ _ _ elem | TSlice _ _ elem => S (height elem)
  | _ => 1
  end.

(** The declarations [type T []T] and [type L []int]: number 0 is [T],
    number 1 is [L], number 2 and the others are [int]. *)
Definition declarations : Universe :=
  fun typ =>
    match typ with
    | 0 => DSlice "main" "T" 0
    | 1 => DSlice "main" "L" 2
    | _ => DScalar KInt "" "int"
    end.

(* ================================================================= *)
(** ** Maps as Go stores them *)

(** The bit pattern of a floating-point number with [e] exponent bits and
    [m] fraction bits is a NaN when the exponent bits are all ones and
    the fraction is not zero, and a zero when all but the sign bit are
    zero. *)
Definition isNaN (e m : Z) (bits : Z) : bool :=
  (((bits / 2 ^ m) mod 2 ^ e =? 2 ^ e - 1) && negb (bits mod 2 ^ m =? 0))%Z.

Definition isZero (e m : Z) (bits : Z) : bool :=
  (bits mod 2 ^ (e + m) =? 0)%Z.

(** [==] on two floating-point numbers: a NaN is equal to nothing, the
    two zeros are equal. *)
Definition float_eqb (e m : Z) (a b : Z) : bool :=
  negb (isNaN e m a) && negb (isNaN e m b) &&
  ((a =? b)%Z || (isZero e m a && isZero e m b)).

(** [==] on two values of one basic type, the equality of map keys. *)
Definition Basic_eqb (a b : Basic) : bool :=
  match a, b with
  | B_bool x, B_bool y => Bool.eqb x y
  | B_int x, B_int y | B_int8 x, B_int8 y | B_int16 x, B_int16 y
  | B_int32 x, B_int32 y | B_int64 x, B_int64 y
  | B_uint x, B_uint y | B_uint8 x, B_uint8 y | B_uint16 x, B_uint16 y
  | B_uint32 x, B_uint32 y | B_uint64 x, B_uint64 y
  | B_uintptr x, B_uintptr y => (x =? y)%Z
  | B_float32 x, B_float32 y => float_eqb 8 23 x y
  | B_float64 x, B_float64 y => float_eqb 11 52 x y
  | B_complex64 x x', B_complex64 y y' =>
      float_eqb 8 23 x y && float_eqb 8 23 x' y'
  | B_complex128 x x', B_complex128 y y' =>
      float_eqb 11 52 x y && float_eqb 11 52 x' y'
  | B_string x, B_string y => (x =? y)%string
  | _, _ => false
  end.

(** A map with keys of a basic type, as Go stores it: its entries.
    [MapKeys] gives the keys; [MapIndex] gives the value of the entry
    whose key is equal to the one asked for, and the zero Value when
    there is none. *)
Definition GoMap : Type := list (Basic * Value).

Definition MapKeys (m : GoMap) : list Basic := map fst m.

Definition MapIndex (m : GoMap) (key : Basic) : Value :=
  match find (fun e : Basic * Value => Basic_eqb (fst e) key) m with
  | Some e => snd e
  | None => Zero
  end.

(** The [reflect.Value] of a map that is not nil, of type [pkg.name] with
    keys of the scalar type [kpkg.kname]: each key [MapKeys] gives, with
    the value [MapIndex] gives for it. *)
Definition MapValue (pkg name kpkg kname : string) (k : ScalarKind)
           (elemT : Type_) (m : GoMap) : Value :=
  VMap pkg name (TScalar k kpkg kname) elemT
       (Some (map (fun key => (VScalar kpkg kname key, MapIndex m key))
                  (MapKeys m))).

(** The quiet NaN [math.NaN()] returns. *)
Definition NaN : Basic := B_float64 0x7FF8000000000001.

(** The keys of a map are equal to themselves and differ from one
    another, unless some are NaN. *)
Fixpoint proper_keys (m : GoMap) : bool :=
  match m with
  | [] => true
  | (k, _) :: rest =>
      Basic_eqb k k &&
      forallb (fun e : Basic * Value => negb (Basic_eqb k (fst e))) rest &&
      proper_keys rest
  end.

(* ================================================================= *)
(** ** A small world to run the command in *)

Module Example.

(** Paths joined with a slash. *)
Definition join (a b : string) : string :=
  String.append a (String.append "/" b).

(** [root] holds a source file, a directory [a] with a source file and an
    empty directory [sub], and an empty directory [c]. *)
Definition tree : Dir :=
  Listing [ ("a", Some (Listing [ ("a.flux", None);
                                  ("sub", Some (Listing [])) ]));
            ("c", Some (Listing []));
            ("r.flux", None) ].

(** The same, with a directory [b] that cannot be read before [c]. *)
Definition tree_denied : Dir :=
  Listing [ ("a", Some (Listing [ ("a.flux", None);
                                  ("sub", Some (Listing [])) ]));
            ("b", Some (Unreadable "permission denied"));
            ("c", Some (Listing []));
            ("r.flux", None) ].

(** [path.Join] and [filepath.Join] on two clean relative paths: the
    dot is left out. *)
Definition Join (a b : string) : string :=
  if a =? "." then b else if b =? "." then a else join a b.

(** The verb [%q] on a name without a quote or a backslash. *)
Definition Quote (x : string) : string :=
  String.String (Ascii.ascii_of_nat 34)
    (String.append x (String.String (Ascii.ascii_of_nat 34) EmptyString)).

(** A package is its name and its path.  The command is run in the
    root: the directory [.] holds the package [r], the directory [a] the
    package [pa], the other directories none. *)
Definition Package : Type := string * string.

Definition ParseDir (dir : string) : result (list (string * Package)) :=
  if dir =? "." then Ok [("r", ("r", ""))]
  else if dir =? "a" then Ok [("pa", ("pa", ""))]
  else Ok [].

Definition ValueOf (pkg : Package) : Value :=
  VPtr "" "" (TStruct "github.com/influxdata/flux/ast" "Package")
    (Some (VStruct "github.com/influxdata/flux/ast" "Package"
             [ mkField "Path" true (VScalar "" "string" (B_string (snd pkg)));
               mkField "Package" true
                 (VScalar "" "string" (B_string (fst pkg))) ])).

(** The command run with [--pkg flux] and the default [--root-dir .] and
    [--import-file builtin_gen.go], every [Save] succeeding.
    [filepath.Rel] from the root [.] gives the path itself, and
    [path.Base] of [flux] is [flux]. *)
Definition generate (tree : Dir) : M (list (string * File)) unit :=
  generate "flux" "." "builtin_gen.go"
    (fun pkg : Package => fst pkg)
    (fun (pkg : Package) path => (fst pkg, path))
    ValueOf
    (fun _ => 0%Z)
    (fun _ => None)
    ParseDir
    Join
    (fun p => p)
    Join
    (fun root dir => Ok dir)
    Quote
    (fun _ _ => None)
    tree.

(** A callback that writes down the directories it is called on and
    fails on the directory [stop]. *)
Definition visit (stop : string) (dir : string) : M (list string) unit :=
  fun log => (if dir =? stop then Err "stop" else Ok tt, log ++ [dir]).

End Example.

(* ================================================================= *)
(** ** Induction on values *)

Unset Implicit Arguments.

Section Value_induction.

Variable P : Value -> Prop.

Hypothesis HZero : P Zero.
Hypothesis HScalar : forall p n b, P (VScalar p n b).
Hypothesis HArray : forall p n t l, Forall P l -> P (VArray p n t l).
Hypothesis HChan : forall p n t, P (VChan p n t).
Hypothesis HFunc : forall p n, P (VFunc p n).
Hypothesis HInterface_nil : forall p n, P (VInterface p n None).
Hypothesis HInterface : forall p n x, P x -> P (VInterface p n (Some x)).
Hypothesis HMap_nil : forall p n k t, P (VMap p n k t None).
Hypothesis HMap : forall p n k t es,
    Forall (fun kv => P (fst kv) /\ P (snd kv)) es ->
    P (VMap p n k t (Some es)).
Hypothesis HPtr_nil : forall p n t, P (VPtr p n t None).
Hypothesis HPtr : forall p n t x, P x -> P (VPtr p n t (Some x)).
Hypothesis HSlice_nil : forall p n t, P (VSlice p n t None).
Hypothesis HSlice : forall p n t l, Forall P l -> P (VSlice p n t (Some l)).
Hypothesis HStruct : forall p n fs,
    Forall (fun f => P (FieldValue f)) fs -> P (VStruct p n fs).
Hypothesis HUnsafePointer : forall p n, P (VUnsafePointer p n).

Fixpoint Value_nested_ind (v : Value) : P v :=
  let all :=
    fix all (l : list Value) : Forall P l :=
      match l with
      | [] => Forall_nil _
      | x :: r => Forall_cons x (Value_nested_ind x) (all r)
      end in
  match v with
  | Zero => HZero
  | VScalar p n b => HScalar p n b
  | VArray p n t l => HArray p n t l (all l)
  | VChan p n t => HChan p n t
  | VFunc p n => HFunc p n
  | VInterface p n None => HInterface_nil p n
  | VInterface p n (Some x) => HInterface p n x (Value_nested_ind x)
  | VMap p n k t None => HMap_nil p n k t
  | VMap p n k t (Some es) =>
      HMap p n k t es
        ((fix pairs (l : list (Value * Value))
            : Forall (fun kv => P (fst kv) /\ P (snd kv)) l :=
            match l with
            | [] => Forall_nil _
            | kv :: r =>
                Forall_cons kv
                  (conj (Value_nested_ind (fst kv))
                        (Value_nested_ind (snd kv)))
                  (pairs r)
            end) es)
  | VPtr p n t None => HPtr_nil p n t
  | VPtr p n t (Some x) => HPtr p n t x (Value_nested_ind x)
  | VSlice p n t None => HSlice_nil p n t
  | VSlice p n t (Some l) => HSlice p n t l (all l)
  | VStruct p n fs =>
      HStruct p n fs
        ((fix fields (l : list (StructField Value))
            : Forall (fun f => P (FieldValue f)) l :=
            match l with
            | [] => Forall_nil _
            | f :: r =>
                Forall_cons f (Value_nested_ind (FieldValue f)) (fields r)
            end) fs)
  | VUnsafePointer p n => HUnsafePointer p n
  end.

End Value_induction.

Section Code_induction.

Variable P : jen.Code -> Prop.

Hypothesis HStmt : forall l, Forall P l -> P (jen.Stmt l).
Hypothesis HOp : forall op, P (jen.Tok_Op op).
Hypothesis HQual : forall path name, P (jen.Tok_Qual path name).
Hypothesis HId : forall name, P (jen.Tok_Id name).
Hypothesis HNil : P jen.Tok_Nil.
Hypothesis HLit : forall v, P (jen.Tok_Lit v).
Hypothesis HIndex : forall l, Forall P l -> P (jen.Grp_Index l).
Hypothesis HValues : forall l, Forall P l -> P (jen.Grp_Values l).
Hypothesis HDict : forall d,
    Forall (fun e => P (fst e) /\ P (snd e)) d -> P (jen.DictOf d).

Fixpoint Code_nested_ind (c : jen.Code) : P c :=
  let all :=
    fix all (l : list jen.Code) : Forall P l :=
      match l with
      | [] => Forall_nil _
      | x :: r => Forall_cons x (Code_nested_ind x) (all r)
      end in
  match c with
  | jen.Stmt l => HStmt l (all l)
  | jen.Tok_Op op => HOp op
  | jen.Tok_Qual path name => HQual path name
  | jen.Tok_Id name => HId name
  | jen.Tok_Nil => HNil
  | jen.Tok_Lit v => HLit v
  | jen.Grp_Index l => HIndex l (all l)
  | jen.Grp_Values l => HValues l (all l)
  | jen.DictOf d =>
      HDict d
        ((fix entries (l : list (jen.Code * jen.Code))
            : Forall (fun e => P (fst e) /\ P (snd e)) l :=
            match l with
            | [] => Forall_nil _
            | e :: r =>
                Forall_cons e
                  (conj (Code_nested_ind (fst e)) (Code_nested_ind (snd e)))
                  (entries r)
            end) d)
  end.

End Code_induction.

(* ================================================================= *)
(** ** The loops *)

Lemma forEach_ext {A S : Type} (body body' : S -> A -> result S) :
  (forall st x, body st x = body' st x) ->
  forall l st, forEach body st l = forEach body' st l.
Proof.
  intros E l; induction l as [|x r IH]; intros st; simpl.
  - reflexivity.
  - rewrite E. destruct (body' st x); simpl; auto.
Qed.

(** A loop that appends one encoded element per round is [mapM]. *)
Lemma forEach_append {A B : Type} (f : A -> result B) :
  forall l acc,
    forEach (fun values x => y <- f x ;; Ok (values ++ [y])) acc l =
    (ys <- mapM f l ;; Ok (acc ++ ys)).
Proof.
  induction l as [|x r IH]; intros acc; simpl.
  - now rewrite app_nil_r.
  - destruct (f x) as [y| |]; simpl; try reflexivity.
    rewrite IH. destruct (mapM f r); simpl; try reflexivity.
    now rewrite <- app_assoc.
Qed.

(** A loop that skips the elements failing a test is the loop over the
    elements that pass it. *)
Lemma forEach_filter {A S : Type} (keep : A -> bool)
      (body : S -> A -> result S) :
  forall l st,
    forEach (fun st x => if negb (keep x) then Ok st else body st x) st l =
    forEach body st (filter keep l).
Proof.
  induction l as [|x r IH]; intros st; simpl.
  - reflexivity.
  - destruct (keep x); simpl.
    + destruct (body st x); simpl; auto.
    + apply IH.
Qed.

Lemma mapM_Ok {A B : Type} (f : A -> result B) :
  forall l ys, mapM f l = Ok ys <-> Forall2 (fun x y => f x = Ok y) l ys.
Proof.
  induction l as [|x r IH]; intros ys; simpl.
  - split.
    + intros [= <-]. constructor.
    + intros H; inversion H; reflexivity.
  - split.
    + destruct (f x) as [y| |] eqn:E; simpl; try discriminate.
      destruct (mapM f r) as [zs| |] eqn:E'; simpl; try discriminate.
      intros [= <-]. constructor; [assumption | now apply IH].
    + intros H; inversion H as [|? y ? zs Hx Hr]; subst.
      rewrite Hx; simpl. apply IH in Hr. now rewrite Hr.
Qed.

Lemma mapM_encodeEntry_Ok (entries : list (Value * Value))
      (d : list (jen.Code * jen.Code)) :
  mapM encodeEntry entries = Ok d <->
  Forall2 (fun (kv : Value * Value) (e : jen.Code * jen.Code) =>
             constructValue (fst kv) = Ok (fst e) /\
             constructValue (snd kv) = Ok (snd e))
          entries d.
Proof.
  rewrite mapM_Ok. split; intros H.
  - induction H as [|[a b] [c c'] r d' Hx _ IH]; constructor; auto.
    unfold encodeEntry in Hx; simpl in *.
    destruct (constructValue a); simpl in Hx; try discriminate.
    destruct (constructValue b); simpl in Hx; try discriminate.
    now injection Hx as -> ->.
  - induction H as [|[a b] [c c'] r d' [Ha Hb] _ IH]; constructor; auto.
    unfold encodeEntry; simpl in *. now rewrite Ha, Hb.
Qed.

Lemma Forall2_In_l {A B : Type} (R : A -> B -> Prop) (l : list A)
      (l' : list B) (x : A) :
  Forall2 R l l' -> In x l -> exists y, In y l' /\ R x y.
Proof.
  induction 1 as [|a b r r' Hab _ IH]; simpl; [contradiction|].
  intros [<- | Hx].
  - exists b. auto.
  - destruct (IH Hx) as (y & Hy & Rxy). exists y. auto.
Qed.

(** [mapM] returns the error of the first element that fails. *)
Lemma mapM_Err {A B : Type} (f : A -> result B) :
  forall before x after e,
    Forall (fun y => exists c, f y = Ok c) before ->
    f x = Err e ->
    mapM f (before ++ x :: after) = Err e.
Proof.
  induction before as [|y r IH]; intros x after e Hb Hx; simpl.
  - now rewrite Hx.
  - inversion Hb as [|? ? [c Hc] Hr]; subst.
    rewrite Hc; simpl. now rewrite (IH x after e Hr Hx).
Qed.

(** [constructValue], case by case, with its loops read as [mapM]. *)
Lemma constructValue_Array p n t elems :
  constructValue (VArray p n t elems) =
  (values <- mapM constructValue elems ;;
   Ok (jen.Stmt (jen.Values
                   (indirectType (TArray p n (List.length elems) t)) values))).
Proof.
  simpl. rewrite forEach_append. simpl.
  destruct (mapM constructValue elems); reflexivity.
Qed.

Lemma constructValue_Slice p n t elems :
  constructValue (VSlice p n t (Some elems)) =
  (values <- mapM constructValue elems ;;
   Ok (jen.Stmt (jen.Values (indirectType (TSlice p n t)) values))).
Proof.
  simpl. rewrite forEach_append. simpl.
  destruct (mapM constructValue elems); reflexivity.
Qed.

Lemma constructValue_Map p n k t entries :
  constructValue (VMap p n k t (Some entries)) =
  (values <- mapM encodeEntry entries ;;
   Ok (jen.Stmt (jen.Values (indirectType (TMap p n k t))
                            [jen.DictOf values]))).
Proof.
  simpl.
  rewrite (forEach_ext _
             (fun values kv => y <- encodeEntry kv ;; Ok (values ++ [y]))).
  - rewrite forEach_append. simpl.
    destruct (mapM encodeEntry entries); reflexivity.
  - intros st [a b]; unfold encodeEntry; simpl.
    destruct (constructValue a); simpl; try reflexivity.
    destruct (constructValue b); reflexivity.
Qed.

Lemma constructValue_Struct p n fields :
  constructValue (VStruct p n fields) =
  (values <- mapM encodeField (filter (@CanInterface Value) fields) ;;
   Ok (jen.Stmt (jen.Values (indirectType (TStruct p n))
                            [jen.DictOf values]))).
Proof.
  simpl.
  rewrite (forEach_filter (@CanInterface Value)
             (fun values field =>
                val <- constructValue (FieldValue field) ;;
                Ok (jen.Dict_set values
                      (jen.Stmt (jen.Id (FieldName field))) val))).
  rewrite (forEach_ext _
             (fun values f => y <- encodeField f ;; Ok (values ++ [y]))).
  - rewrite forEach_append. simpl.
    destruct (mapM encodeField _); reflexivity.
  - intros st f; unfold encodeField.
    destruct (constructValue (FieldValue f)); reflexivity.
Qed.

(** The scalar case: the table has the basic type of every scalar kind,
    the conversion keeps the payload, and the literal holds it. *)
Lemma types_lookup (k : ScalarKind) :
  lookup types (Scalar k) = Some (basicType k).
Proof. destruct k; reflexivity. Qed.

Lemma Convert_basicType (b : Basic) :
  Convert b (basicType (Basic_Kind b)) = Some (basicType (Basic_Kind b), b).
Proof. destruct b; reflexivity. Qed.

Lemma Lit_basicType (k : ScalarKind) (b : Basic) :
  jen.Lit (basicType k, b) = Some [jen.Tok_Lit b].
Proof. destruct k; reflexivity. Qed.

Lemma constructValue_Scalar p n b :
  constructValue (VScalar p n b) = Ok (jen.Stmt [jen.Tok_Lit b]).
Proof.
  destruct b; reflexivity.
Qed.

Lemma scalar_case_spec (k : Kind) :
  In k scalar_case <-> exists s, k = Scalar s.
Proof.
  split.
  - unfold scalar_case; simpl; intros H.
    repeat (destruct H as [<- | H]; [eexists; reflexivity|]).
    contradiction.
  - intros [s ->]. unfold scalar_case.
    destruct s; simpl; tauto.
Qed.

Lemma has_rule_Scalar (s : ScalarKind) : has_rule (Scalar s) = true.
Proof. destruct s; reflexivity. Qed.

Lemma mapM_no_panic {A B : Type} (f : A -> result B) (l : list A) :
  Forall (fun x => f x <> Panic) l -> mapM f l <> Panic.
Proof.
  induction 1 as [|x r Hx _ IH]; simpl; [discriminate|].
  destruct (f x); simpl; try discriminate; try tauto.
  destruct (mapM f r); simpl; try discriminate; tauto.
Qed.

(** [constructValue] never panics. *)
Lemma constructValue_no_panic (v : Value) : constructValue v <> Panic.
Proof.
  induction v using Value_nested_ind; try (simpl; discriminate).
  - rewrite constructValue_Scalar; discriminate.
  - rewrite constructValue_Array.
    pose proof (mapM_no_panic constructValue l H).
    destruct (mapM constructValue l); simpl; try discriminate; tauto.
  - simpl. assumption.
  - rewrite constructValue_Map.
    assert (E : mapM encodeEntry es <> Panic).
    { apply mapM_no_panic. eapply Forall_impl; [|exact H].
      intros [a b] [Ha Hb]; unfold encodeEntry; simpl in *.
      destruct (constructValue a); simpl; try discriminate; try tauto.
      destruct (constructValue b); simpl; try discriminate; tauto. }
    destruct (mapM encodeEntry es); simpl; try discriminate; tauto.
  - simpl. destruct (constructValue v); simpl; try discriminate; tauto.
  - rewrite constructValue_Slice.
    pose proof (mapM_no_panic constructValue l H).
    destruct (mapM constructValue l); simpl; try discriminate; tauto.
  - rewrite constructValue_Struct.
    assert (E : mapM encodeField (filter (@CanInterface Value) fs) <> Panic).
    { apply mapM_no_panic. apply incl_Forall with (l1 := fs).
      - intros f Hf. apply filter_In in Hf. tauto.
      - eapply Forall_impl; [|exact H].
        intros f Hf; unfold encodeField; cbv beta in Hf.
        destruct (constructValue (FieldValue f)); simpl;
          try discriminate; tauto. }
    destruct (mapM encodeField _); simpl; try discriminate; tauto.
Qed.

(* ================================================================= *)
(** ** The type expression of a type *)

(** On a type that unfolds to a finite tree, [indirectType] returns, once
    its calls may nest as deep as the tree is high, what it returns on the
    tree. *)
Lemma indirectType_in_unfolds (U : Universe) (typ : nat) (t : Type_) :
  unfolds U typ t ->
  forall depth, height t <= depth ->
  indirectType_in U depth typ = Some (indirectType t).
Proof.
  induction 1 as [typ k p n E|typ p n len elem e E _ IH|typ p n elem e E _ _
                 |typ p n E|typ p n E
                 |typ p n key elem k e E _ IHk _ IHe
                 |typ p n elem e E _ IH|typ p n elem e E _ IH
                 |typ p n E|typ p n E];
    intros [|depth] Hd; simpl in Hd; try lia; simpl; rewrite E;
    try reflexivity.
  - rewrite IH by lia. reflexivity.
  - rewrite IHk, IHe by lia. reflexivity.
  - rewrite IH by lia. reflexivity.
  - rewrite IH by lia. reflexivity.
Qed.

(** A slice type whose element is the type itself: the call on the type
    waits for the call on its element, which is the same call one level
    deeper. *)
Lemma indirectType_in_self (U : Universe) (typ : nat) (p n : string) :
  U typ = DSlice p n typ ->
  forall depth, indirectType_in U depth typ = None.
Proof.
  intros E. induction depth as [|depth IH]; simpl; [reflexivity|].
  now rewrite E, IH.
Qed.

(** C8.  On [type T []T], a slice type, [indirectType] does not return:
    however deep its calls may nest, the call on [T] has not returned, as
    it waits for the call on the element of [T], which is [T].  On
    [type L []int] it returns [[]int]. *)
Theorem indirectType_self_reference :
  declarations 0 = DSlice "main" "T" 0 /\
  (forall depth, indirectType_in declarations depth 0 = None) /\
  indirectType_in declarations 2 1 =
    Some [jen.Grp_Index []; jen.Stmt [jen.Tok_Qual "" "int"]].
Proof.
  split; [reflexivity|]. split; [|reflexivity].
  apply (indirectType_in_self declarations 0 "main" "T"). reflexivity.
Qed.

(* ================================================================= *)
(** ** Slices *)

(** C2.  A slice encodes as the [nil] literal exactly when it is nil.  A
    slice that is not nil, and whose elements all encode, gives the type
    expression of the slice type followed by a [Values] group that holds
    the encoded elements in index order; with no element the group is
    empty. *)
Theorem slice_nil_distinction p n t (elems : option (list Value)) :
  (constructValue (VSlice p n t elems) = Ok (jen.Stmt jen.Nil) <->
   elems = None) /\
  (elems = Some [] ->
   constructValue (VSlice p n t elems) =
   Ok (jen.Stmt (indirectType (TSlice p n t) ++ [jen.Grp_Values []]))) /\
  (forall es cs,
     elems = Some es ->
     Forall2 (fun x c => constructValue x = Ok c) es cs ->
     constructValue (VSlice p n t elems) =
     Ok (jen.Stmt (indirectType (TSlice p n t) ++ [jen.Grp_Values cs]))).
Proof.
  repeat split.
  - destruct elems as [es|]; [|reflexivity].
    rewrite constructValue_Slice.
    destruct (mapM constructValue es); simpl; discriminate.
  - intros ->. reflexivity.
  - intros ->. reflexivity.
  - intros es cs -> H. rewrite constructValue_Slice.
    apply mapM_Ok in H. now rewrite H.
Qed.

Lemma slice_nil_distinction_witness :
  let one := VScalar "" "int" (B_int 1) in
  let two := VScalar "" "int" (B_int 2) in
  let int := TypeOf (B_int 0) in
  constructValue (VSlice "" "" int None) = Ok (jen.Stmt [jen.Tok_Nil]) /\
  constructValue (VSlice "" "" int (Some [])) =
  Ok (jen.Stmt [jen.Grp_Index []; jen.Stmt [jen.Tok_Qual "" "int"];
                jen.Grp_Values []]) /\
  constructValue (VSlice "" "" int (Some [one; two])) =
  Ok (jen.Stmt [jen.Grp_Index []; jen.Stmt [jen.Tok_Qual "" "int"];
                jen.Grp_Values [jen.Stmt [jen.Tok_Lit (B_int 1)];
                                jen.Stmt [jen.Tok_Lit (B_int 2)]]]).
Proof.
  intros one two int.
  split; [|split].
  - destruct (slice_nil_distinction "" "" int None) as [[_ H] _].
    exact (H eq_refl).
  - destruct (slice_nil_distinction "" "" int (Some [])) as (_ & H & _).
    exact (H eq_refl).
  - destruct (slice_nil_distinction "" "" int (Some [one; two]))
      as (_ & _ & H).
    apply (H [one; two]
             [jen.Stmt [jen.Tok_Lit (B_int 1)];
              jen.Stmt [jen.Tok_Lit (B_int 2)]] eq_refl).
    repeat constructor.
Defined.

(* ================================================================= *)
(** ** Interfaces *)

(** C3.  A nil interface encodes as the [nil] literal.  An interface that
    holds a value encodes as that value does: the result, expression or
    error, is the one of the held value, and nothing of the interface
    type is left in it. *)
Theorem interface_unwrap p n (held : Value) :
  constructValue (VInterface p n None) = Ok (jen.Stmt jen.Nil) /\
  constructValue (VInterface p n (Some held)) = constructValue held.
Proof. split; reflexivity. Qed.

(* ================================================================= *)
(** ** Structs *)

(** C5.  A struct whose readable fields all encode gives the qualified
    name of its type followed by a [Values] group that holds one [Dict];
    the [Dict] has one entry per readable field, met in declaration
    order, from the field's name to the field's encoding.  A field that
    cannot be read gives no entry and no error, whatever it holds. *)
Theorem struct_fields p n (fields : list (StructField Value))
        (cs : list jen.Code) :
  Forall2 (fun f c => constructValue (FieldValue f) = Ok c)
          (filter (@CanInterface Value) fields) cs ->
  constructValue (VStruct p n fields) =
  Ok (jen.Stmt
        [jen.Tok_Qual p n;
         jen.Grp_Values
           [jen.DictOf
              (combine
                 (map (fun f => jen.Stmt [jen.Tok_Id (FieldName f)])
                      (filter (@CanInterface Value) fields))
                 cs)]]).
Proof.
  intros H. rewrite constructValue_Struct.
  assert (E : mapM encodeField (filter (@CanInterface Value) fields) =
              Ok (combine
                    (map (fun f => jen.Stmt [jen.Tok_Id (FieldName f)])
                         (filter (@CanInterface Value) fields)) cs)).
  { induction H as [|f c fs cs' Hf _ IH]; simpl; [reflexivity|].
    unfold encodeField at 1. rewrite Hf; simpl. now rewrite IH. }
  now rewrite E.
Qed.

Lemma struct_fields_witness :
  constructValue
    (VStruct "main" "T"
       [ mkField "A" true (VScalar "" "int" (B_int 1));
         mkField "b" false (VFunc "" "");
         mkField "C" true (VScalar "" "string" (B_string "x")) ]) =
  Ok (jen.Stmt
        [jen.Tok_Qual "main" "T";
         jen.Grp_Values
           [jen.DictOf
              [ (jen.Stmt [jen.Tok_Id "A"], jen.Stmt [jen.Tok_Lit (B_int 1)]);
                (jen.Stmt [jen.Tok_Id "C"],
                 jen.Stmt [jen.Tok_Lit (B_string "x")]) ]]]).
Proof.
  apply (struct_fields "main" "T"
           [ mkField "A" true (VScalar "" "int" (B_int 1));
             mkField "b" false (VFunc "" "");
             mkField "C" true (VScalar "" "string" (B_string "x")) ]
           [ jen.Stmt [jen.Tok_Lit (B_int 1)];
             jen.Stmt [jen.Tok_Lit (B_string "x")] ]).
  simpl. repeat constructor.
Defined.

(* ================================================================= *)
(** ** Kinds without a rule *)

Lemma Kind_String_inj (k k' : Kind) :
  Kind_String k = Kind_String k' -> k = k'.
Proof.
  destruct k as [|s| | | | | | | | |]; destruct k' as [|s'| | | | | | | | |];
    try destruct s; try destruct s'; simpl;
    intros H; try reflexivity; discriminate H.
Qed.

(** C6.  For a value whose kind has no case in the switch,
    [constructValue] returns no expression and an error; the error's
    message names the kind, and the messages of two kinds differ. *)
Theorem unsupported_kind (v : Value) :
  has_rule (Value_Kind v) = false ->
  constructValue v = Err (unsupported (Value_Kind v)) /\
  result_value (constructValue v) = None /\
  result_error (constructValue v) =
    Some (String.append "unsupport value kind " (Kind_String (Value_Kind v))) /\
  (forall k, unsupported k = unsupported (Value_Kind v) -> k = Value_Kind v).
Proof.
  intros H.
  assert (E : constructValue v = Err (unsupported (Value_Kind v))).
  { destruct v as [|p n b| | | |p n h|p n k t es|p n t x|p n t es| |];
      try reflexivity; try discriminate H.
    change (has_rule (Scalar (Basic_Kind b)) = false) in H.
    now rewrite has_rule_Scalar in H. }
  rewrite E. repeat split.
  intros k Hk. unfold unsupported in Hk.
  apply Kind_String_inj.
  simpl in Hk. now injection Hk.
Qed.

Lemma unsupported_kind_witness :
  constructValue (VFunc "" "") = Err "unsupport value kind func".
Proof.
  apply (unsupported_kind (VFunc "" "")). reflexivity.
Defined.

(* ================================================================= *)
(** ** Errors of the components *)

Lemma mapM_entries_Err (entries : list (Value * Value)) (e : error) :
  mapM constructValue
       (flat_map (fun kv : Value * Value => [fst kv; snd kv]) entries) = Err e ->
  mapM encodeEntry entries = Err e.
Proof.
  induction entries as [|[a b] r IH]; simpl; [discriminate|].
  unfold encodeEntry at 1; simpl.
  destruct (constructValue a); simpl;
    try discriminate; try (intros [= ->]; reflexivity).
  destruct (constructValue b); simpl;
    try discriminate; try (intros [= ->]; reflexivity).
  destruct (mapM constructValue (flat_map _ r)); simpl; try discriminate.
  intros H. now rewrite (IH H).
Qed.

Lemma mapM_fields_Err (fs : list (StructField Value)) (e : error) :
  mapM constructValue (map (@FieldValue Value) fs) = Err e ->
  mapM encodeField fs = Err e.
Proof.
  induction fs as [|f r IH]; simpl; [discriminate|].
  unfold encodeField at 1.
  destruct (constructValue (FieldValue f)); simpl;
    try discriminate; try (intros [= ->]; reflexivity).
  destruct (mapM constructValue (map _ r)); simpl; try discriminate.
  intros H. now rewrite (IH H).
Qed.

(** C7.  [constructValue v] calls itself on the components of [v] in
    order, and calls on a component once the calls before it have all
    returned an expression.  When such a call returns an error, the call
    on [v] returns that very error and no expression.  This holds for
    arrays, slices, maps (keys and values), pointers and structs (the
    fields that can be read), and for interfaces as well. *)
Theorem fail_fast (v : Value) (before : list Value) (x : Value)
        (after : list Value) (e : error) :
  components v = before ++ x :: after ->
  Forall (fun y => exists c, constructValue y = Ok c) before ->
  constructValue x = Err e ->
  constructValue v = Err e /\
  result_value (constructValue v) = None /\
  result_error (constructValue v) = Some e.
Proof.
  intros Hc Hb Hx.
  assert (E : constructValue v = Err e); [|rewrite E; repeat split].
  assert (M : mapM constructValue (components v) = Err e)
    by (rewrite Hc; now apply mapM_Err).
  clear Hc Hb.
  destruct v as [|p n b|p n t l| | |p n [h|]|p n k t [es|]|p n t [y|]
                |p n t [l|]|p n fs|]; simpl in M; try discriminate M.
  - rewrite constructValue_Array. now rewrite M.
  - simpl. destruct (constructValue h); simpl in M;
      try discriminate M. now injection M as ->.
  - rewrite constructValue_Map. now rewrite (mapM_entries_Err _ _ M).
  - simpl. destruct (constructValue y); simpl in M;
      try discriminate M. now injection M as ->.
  - rewrite constructValue_Slice. now rewrite M.
  - rewrite constructValue_Struct. now rewrite (mapM_fields_Err _ _ M).
Qed.

Lemma fail_fast_witness :
  constructValue
    (VStruct "main" "T"
       [ mkField "A" true (VScalar "" "int" (B_int 1));
         mkField "F" true (VFunc "" "");
         mkField "C" true (VChan "" "" (TypeOf (B_int 0))) ]) =
  Err "unsupport value kind func".
Proof.
  apply (fail_fast
           (VStruct "main" "T"
              [ mkField "A" true (VScalar "" "int" (B_int 1));
                mkField "F" true (VFunc "" "");
                mkField "C" true (VChan "" "" (TypeOf (B_int 0))) ])
           [VScalar "" "int" (B_int 1)]
           (VFunc "" "")
           [VChan "" "" (TypeOf (B_int 0))]).
  - reflexivity.
  - constructor; [eexists; reflexivity | constructor].
  - reflexivity.
Defined.

(* ================================================================= *)
(** ** The success path *)

Lemma mapM_supported (l : list Value) :
  Forall (fun x => supported x = true -> exists c, constructValue x = Ok c) l ->
  forallb supported l = true ->
  exists cs, mapM constructValue l = Ok cs.
Proof.
  induction 1 as [|x r Hx _ IH]; simpl; intros S.
  - now eexists.
  - apply andb_prop in S as [Sx Sr].
    destruct (Hx Sx) as [c ->]. destruct (IH Sr) as [cs ->].
    now eexists.
Qed.

Lemma find_app_None {A : Type} (f : A -> bool) (l l' : list A) :
  (forall x, In x l -> f x = false) -> find f (l ++ l') = find f l'.
Proof.
  induction l as [|x r IH]; intros H; simpl; [reflexivity|].
  rewrite (H x (or_introl eq_refl)). apply IH. intros y Hy. apply H. now right.
Qed.

Lemma MapIndex_proper (m : GoMap) :
  forall before : GoMap,
    (forall e e', In e before -> In e' m ->
                  Basic_eqb (fst e) (fst e') = false) ->
    proper_keys m = true ->
    map (MapIndex (before ++ m)) (MapKeys m) = map snd m.
Proof.
  induction m as [|[k v] r IH]; intros before Hb Hp; simpl; [reflexivity|].
  simpl in Hp. apply andb_prop in Hp as [Hp Hr].
  apply andb_prop in Hp as [Hk Hd]. f_equal.
  - unfold MapIndex. rewrite find_app_None.
    + simpl. now rewrite Hk.
    + intros e He. apply (Hb e (k, v) He). now left.
  - replace (before ++ (k, v) :: r) with ((before ++ [(k, v)]) ++ r)
      by now rewrite <- app_assoc.
    apply IH; [|assumption].
    intros e e' He He'. apply in_app_or in He as [He|[<-|[]]].
    + apply Hb; [assumption | now right].
    + rewrite forallb_forall in Hd. specialize (Hd e' He').
      simpl. now destruct (Basic_eqb k (fst e')).
Qed.

(** The value of a map none of whose keys is a NaN lists the entries of
    the map as they are stored. *)
Lemma MapValue_proper (p n kp kn : string) (k : ScalarKind) (t : Type_)
      (m : GoMap) :
  proper_keys m = true ->
  MapValue p n kp kn k t m =
  VMap p n (TScalar k kp kn) t
       (Some (map (fun e : Basic * Value => (VScalar kp kn (fst e), snd e))
                  m)).
Proof.
  intros Hp. unfold MapValue. do 2 f_equal.
  pose proof (MapIndex_proper m [] (fun e e' (H : In e []) => match H with end)
                              Hp) as E.
  simpl in E. unfold MapKeys in *. clear Hp.
  revert E. generalize (MapIndex m). intros g.
  induction m as [|[key v] r IH]; simpl; intros E; [reflexivity|].
  injection E as -> E. f_equal. now apply IH.
Qed.

(** C10.  The map [map[float64]int{NaN: 1}] has a key of kind float64 and
    a value of kind int, and [constructValue] has a rule for both and for
    maps.  Yet it returns no expression and the error of the default
    case: [MapKeys] gives the key NaN, [MapIndex] finds no entry for a NaN
    and gives the zero Value, whose kind is invalid. *)
Theorem NaN_key_map :
  let m : GoMap := [(NaN, VScalar "" "int" (B_int 1))] in
  let v := MapValue "" "" "" "float64" KFloat64 (TypeOf (B_int 0)) m in
  Forall (fun e : Basic * Value =>
            supported (VScalar "" "float64" (fst e)) = true /\
            supported (snd e) = true) m /\
  Value_Kind v = Map /\
  constructValue v = Err "unsupport value kind invalid" /\
  result_value (constructValue v) = None /\
  result_error (constructValue v) = Some (unsupported Invalid).
Proof.
  intros m v. repeat split. repeat constructor.
Qed.

(** A supported value, as modelled, encodes. *)
Lemma supported_Ok (v : Value) :
  supported v = true -> exists c, constructValue v = Ok c.
Proof.
  induction v using Value_nested_ind; intros S; try discriminate S;
    try (eexists; reflexivity).
  - rewrite constructValue_Scalar. now eexists.
  - rewrite constructValue_Array.
    destruct (mapM_supported l H S) as [cs ->]. now eexists.
  - simpl in *. auto.
  - rewrite constructValue_Map.
    assert (M : exists d, mapM encodeEntry es = Ok d).
    { simpl in S. induction H as [|[a b] r [Ha Hb] _ IH]; simpl.
      - now eexists.
      - simpl in *. apply andb_prop in S as [Sab Sr].
        apply andb_prop in Sab as [Sa Sb].
        unfold encodeEntry at 1; simpl.
        destruct (Ha Sa) as [ca ->]. destruct (Hb Sb) as [cb ->].
        destruct (IH Sr) as [d ->]. now eexists. }
    destruct M as [d ->]. now eexists.
  - simpl in *. destruct (IHv S) as [c ->]. now eexists.
  - rewrite constructValue_Slice.
    destruct (mapM_supported l H S) as [cs ->]. now eexists.
  - rewrite constructValue_Struct.
    assert (M : exists d,
               mapM encodeField (filter (@CanInterface Value) fs) = Ok d).
    { simpl in S. induction H as [|f r Hf _ IH]; simpl.
      - now eexists.
      - simpl in S. apply andb_prop in S as [Sf Sr].
        destruct (CanInterface f); simpl in *; [|auto].
        unfold encodeField at 1.
        destruct (Hf Sf) as [c ->]. destruct (IH Sr) as [d ->].
        now eexists. }
    destruct M as [d ->]. now eexists.
Qed.

(** Conversely a value that encodes is a supported one: [supported] is
    the domain on which [constructValue] returns an expression. *)
Lemma constructValue_Ok_supported (v : Value) :
  forall c, constructValue v = Ok c -> supported v = true.
Proof.
  induction v using Value_nested_ind; intros c E;
    try discriminate E; try reflexivity.
  - rewrite constructValue_Array in E. simpl.
    destruct (mapM constructValue l) as [cs| |] eqn:M; try discriminate E.
    apply mapM_Ok in M. apply forallb_forall. intros x Hx.
    destruct (Forall2_In_l _ _ _ x M Hx) as (y & _ & Hy).
    rewrite Forall_forall in H. exact (H x Hx y Hy).
  - simpl in *. eauto.
  - rewrite constructValue_Map in E. simpl.
    destruct (mapM encodeEntry es) as [d| |] eqn:M; try discriminate E.
    apply mapM_encodeEntry_Ok in M. apply forallb_forall. intros x Hx.
    destruct (Forall2_In_l _ _ _ x M Hx) as (y & _ & Ha & Hb).
    rewrite Forall_forall in H. destruct (H x Hx) as [IHa IHb].
    now rewrite (IHa _ Ha), (IHb _ Hb).
  - simpl in *. destruct (constructValue v); try discriminate E. eauto.
  - rewrite constructValue_Slice in E. simpl.
    destruct (mapM constructValue l) as [cs| |] eqn:M; try discriminate E.
    apply mapM_Ok in M. apply forallb_forall. intros x Hx.
    destruct (Forall2_In_l _ _ _ x M Hx) as (y & _ & Hy).
    rewrite Forall_forall in H. exact (H x Hx y Hy).
  - rewrite constructValue_Struct in E. simpl.
    destruct (mapM encodeField _) as [d| |] eqn:M; try discriminate E.
    apply mapM_Ok in M. apply forallb_forall. intros f Hf.
    destruct (CanInterface f) eqn:Cf; [simpl|reflexivity].
    assert (Hf' : In f (filter (@CanInterface Value) fs))
      by (apply filter_In; auto).
    destruct (Forall2_In_l _ _ _ f M Hf') as (y & _ & Hy).
    unfold encodeField in Hy.
    destruct (constructValue (FieldValue f)) as [c'| |] eqn:Ec;
      try discriminate Hy.
    rewrite Forall_forall in H. exact (H f Hf c' Ec).
Qed.

(* ================================================================= *)
(** ** Maps and the order of their entries *)

Lemma mapM_Permutation {A B : Type} (f : A -> result B) (l l' : list A) :
  Permutation l l' ->
  forall ys, mapM f l = Ok ys ->
  exists ys', mapM f l' = Ok ys' /\ Permutation ys ys'.
Proof.
  induction 1 as [|x l l' _ IH|x y l|l l' l'' _ IH1 _ IH2]; intros ys; simpl.
  - intros [= <-]. now exists [].
  - destruct (f x) as [c| |]; simpl; try discriminate.
    destruct (mapM f l) as [cs| |]; simpl; try discriminate.
    intros [= <-]. destruct (IH cs eq_refl) as (cs' & -> & P).
    exists (c :: cs'). split; [reflexivity | now constructor].
  - destruct (f y) as [c| |]; simpl; try discriminate.
    destruct (f x) as [d| |]; simpl; try discriminate.
    destruct (mapM f l) as [cs| |]; simpl; try discriminate.
    intros [= <-]. exists (d :: c :: cs). split; [reflexivity | constructor].
  - intros H. destruct (IH1 ys H) as (ys' & H' & P).
    destruct (IH2 ys' H') as (ys'' & H'' & P').
    exists ys''. split; [assumption | now transitivity ys'].
Qed.

(** C4, as the program has it.  A map that is not nil, and whose keys
    and values all encode, gives the type expression of the map type
    followed by a [Values] group that holds one [Dict], with one entry
    per key met, from the encoded key to the encoded value.  The [Dict]
    is a Go map and keeps no order: had the keys been met in another
    order, the entries would be the same ones and the [Dict] the same. *)
Theorem map_entries_unordered p n k t (entries entries' : list (Value * Value))
        (d : jen.Dict) :
  Permutation entries entries' ->
  Forall2 (fun (kv : Value * Value) (e : jen.Code * jen.Code) =>
             constructValue (fst kv) = Ok (fst e) /\
             constructValue (snd kv) = Ok (snd e))
          entries d ->
  constructValue (VMap p n k t (Some entries)) =
    Ok (jen.Stmt (indirectType (TMap p n k t) ++
                  [jen.Grp_Values [jen.DictOf d]])) /\
  exists d',
    Permutation d d' /\
    constructValue (VMap p n k t (Some entries')) =
      Ok (jen.Stmt (indirectType (TMap p n k t) ++
                    [jen.Grp_Values [jen.DictOf d']])).
Proof.
  intros P H. apply mapM_encodeEntry_Ok in H.
  destruct (mapM_Permutation encodeEntry _ _ P d H) as (d' & H' & Pd).
  rewrite !constructValue_Map, H, H'.
  split; [reflexivity|]. exists d'. now split.
Qed.

Lemma map_entries_unordered_witness :
  let one := VScalar "" "int" (B_int 1) in
  let two := VScalar "" "int" (B_int 2) in
  let a := VScalar "" "string" (B_string "a") in
  let b := VScalar "" "string" (B_string "b") in
  let int := TypeOf (B_int 0) in
  let string := TypeOf (B_string "") in
  exists d',
    Permutation
      [ (jen.Stmt [jen.Tok_Lit (B_int 1)], jen.Stmt [jen.Tok_Lit (B_string "a")]);
        (jen.Stmt [jen.Tok_Lit (B_int 2)], jen.Stmt [jen.Tok_Lit (B_string "b")]) ]
      d' /\
    constructValue (VMap "" "" int string (Some [(two, b); (one, a)])) =
      Ok (jen.Stmt (indirectType (TMap "" "" int string) ++
                    [jen.Grp_Values [jen.DictOf d']])).
Proof.
  intros one two a b int string.
  apply (map_entries_unordered "" "" int string
           [(one, a); (two, b)] [(two, b); (one, a)]
           [ (jen.Stmt [jen.Tok_Lit (B_int 1)],
              jen.Stmt [jen.Tok_Lit (B_string "a")]);
             (jen.Stmt [jen.Tok_Lit (B_int 2)],
              jen.Stmt [jen.Tok_Lit (B_string "b")]) ]).
  - apply perm_swap.
  - repeat constructor.
Defined.

(** C4, as the specification states it.  The order in which the entries of a map
    were met cannot be read off the expression: the map [{1: "a", 2: "b"}]
    met as [1, 2] and met as [2, 1] gives one and the same [Dict]. *)
Lemma entry_order_not_recorded : ~ entry_order_recorded.
Proof.
  intros (order_of & Hperm & Hrec).
  pose (one := VScalar "" "int" (B_int 1)).
  pose (two := VScalar "" "int" (B_int 2)).
  pose (a := VScalar "" "string" (B_string "a")).
  pose (b := VScalar "" "string" (B_string "b")).
  pose (e1 := (jen.Stmt [jen.Tok_Lit (B_int 1)],
               jen.Stmt [jen.Tok_Lit (B_string "a")])).
  pose (e2 := (jen.Stmt [jen.Tok_Lit (B_int 2)],
               jen.Stmt [jen.Tok_Lit (B_string "b")])).
  pose proof (Hrec "" "" (TypeOf (B_int 0)) (TypeOf (B_string ""))
                [(one, a); (two, b)] [e1; e2] eq_refl) as H12.
  pose proof (Hrec "" "" (TypeOf (B_int 0)) (TypeOf (B_string ""))
                [(two, b); (one, a)] [e2; e1] eq_refl) as H21.
  rewrite (Hperm [e2; e1] [e1; e2] (perm_swap e1 e2 [])) in H21.
  destruct (order_of [e1; e2]) as [|e r]; inversion H12 as [|? ? ? ? [K1 _] _].
  inversion H21 as [|? ? ? ? [K2 _] _]. subst.
  simpl in K1, K2. rewrite <- K1 in K2. discriminate K2.
Qed.

(* ================================================================= *)
(** ** Two runs on one value *)

Lemma Forall2_eq {A : Type} (R : A -> A -> Prop) (ok : A -> bool)
      (l l' : list A) :
  Forall (fun x => forall y, ok x = true -> R x y -> x = y) l ->
  forallb ok l = true ->
  Forall2 R l l' ->
  l = l'.
Proof.
  intros H S F. induction F as [|x y r r' Hxy _ IH]; [reflexivity|].
  inversion H as [|? ? Hx Hr]; subst.
  simpl in S. apply andb_prop in S as [Sx Sr].
  f_equal; [now apply Hx | now apply IH].
Qed.

Lemma same_value_small_maps (v : Value) :
  forall v', small_maps v = true -> same_value v v' -> v = v'.
Proof.
  induction v using Value_nested_ind; intros v' S E;
    inversion E; subst; try reflexivity.
  - f_equal. now apply (Forall2_eq same_value small_maps).
  - f_equal. f_equal. now apply IHv.
  - f_equal. f_equal. simpl in S. apply andb_prop in S as [L S].
    apply Nat.leb_le in L.
    apply (Forall2_eq
             (fun a b : Value * Value =>
                same_value (fst a) (fst b) /\ same_value (snd a) (snd b))
             (fun kv => small_maps (fst kv) && small_maps (snd kv)));
      [| assumption |].
    + clear - H. induction H as [|[a b] r [Ha Hb] _ IH]; constructor; auto.
      intros [a' b'] Sab [Ea Eb]; simpl in *.
      apply andb_prop in Sab as [Sa Sb].
      now rewrite (Ha a' Sa Ea), (Hb b' Sb Eb).
    + match goal with Q : Permutation es _ |- _ => rename Q into Q0 end.
      destruct es as [|kv [|? ?]]; simpl in L; try lia.
      * apply Permutation_nil in Q0. now subst.
      * apply Permutation_length_1_inv in Q0. now subst.
  - f_equal. f_equal. now apply IHv.
  - f_equal. f_equal. now apply (Forall2_eq same_value small_maps).
  - f_equal.
    apply (Forall2_eq
             (fun f f' : StructField Value =>
                FieldName f = FieldName f' /\
                CanInterface f = CanInterface f' /\
                same_value (FieldValue f) (FieldValue f'))
             (fun f => small_maps (FieldValue f)));
      [| assumption | assumption].
    clear - H. induction H as [|[fn fc fv] r Hf _ IH]; constructor; auto.
    intros [fn' fc' fv'] Sf (En & Ec & Ev); simpl in *. subst.
    f_equal. now apply Hf.
Qed.

Lemma Forall2_diag {A : Type} (R : A -> A -> Prop) (l : list A) :
  Forall (fun x => R x x) l -> Forall2 R l l.
Proof. induction 1; constructor; assumption. Qed.

Lemma code_equiv_refl (c : jen.Code) : code_equiv c c.
Proof.
  induction c using Code_nested_ind; try constructor;
    try (now apply Forall2_diag).
  apply ce_Dict with (d1 := d); [apply Permutation_refl|].
  now apply Forall2_diag.
Qed.

(** Related lists are encoded to related lists. *)
Lemma mapM_Forall2 {A B : Type} (f : A -> result B)
      (RA : A -> A -> Prop) (RB : B -> B -> Prop) (l l' : list A) :
  Forall (fun x => forall x', RA x x' ->
            forall y, f x = Ok y -> exists y', f x' = Ok y' /\ RB y y') l ->
  Forall2 RA l l' ->
  forall ys, mapM f l = Ok ys ->
  exists ys', mapM f l' = Ok ys' /\ Forall2 RB ys ys'.
Proof.
  intros H F. induction F as [|x x' r r' Hx _ IH]; intros ys; simpl.
  - intros [= <-]. exists []. split; [reflexivity | constructor].
  - inversion H as [|? ? Px Pr]; subst.
    destruct (f x) as [y| |] eqn:Ex; simpl; try discriminate.
    destruct (mapM f r) as [zs| |]; simpl; try discriminate.
    intros [= <-].
    destruct (Px x' Hx y eq_refl) as (y' & -> & Ry).
    destruct (IH Pr zs eq_refl) as (zs' & -> & Rz).
    exists (y' :: zs'). split; [reflexivity | now constructor].
Qed.

Lemma Forall2_filter {A : Type} (R : A -> A -> Prop) (keep : A -> bool)
      (l l' : list A) :
  (forall x y, R x y -> keep x = keep y) ->
  Forall2 R l l' ->
  Forall2 R (filter keep l) (filter keep l').
Proof.
  intros K. induction 1 as [|x y r r' Rxy _ IH]; simpl; [constructor|].
  rewrite <- (K x y Rxy). destruct (keep x); [constructor|]; assumption.
Qed.

Lemma code_equiv_composite (s : jen.Statement) (g g' : jen.Code) :
  code_equiv g g' -> code_equiv (jen.Stmt (s ++ [g])) (jen.Stmt (s ++ [g'])).
Proof.
  intros G. constructor. apply Forall2_app.
  - apply Forall2_diag, Forall_forall. intros; apply code_equiv_refl.
  - constructor; [assumption | constructor].
Qed.

(** A run that returns an expression, and a second run. *)
Lemma same_value_Ok (v : Value) :
  forall v', same_value v v' ->
  forall c, constructValue v = Ok c ->
  exists c', constructValue v' = Ok c' /\ code_equiv c c'.
Proof.
  induction v using Value_nested_ind; intros v' E c Hc;
    inversion E; subst;
    try (exists c; split; [assumption | apply code_equiv_refl]).
  - match goal with F : Forall2 same_value _ _ |- _ => rename F into F0 end.
    rewrite constructValue_Array in *.
    rewrite <- (Forall2_length F0).
    destruct (mapM constructValue l) as [cs| |] eqn:M; try discriminate Hc.
    destruct (mapM_Forall2 constructValue same_value code_equiv l l' H F0 cs M)
      as (cs' & -> & R).
    injection Hc as <-. eexists; split; [reflexivity|].
    apply code_equiv_composite. now constructor.
  - simpl in *. eauto.
  - match goal with Q : Permutation es _ |- _ => rename Q into Q0 end.
    match goal with F : Forall2 _ es1 _ |- _ => rename F into F0 end.
    rewrite constructValue_Map in *.
    destruct (mapM encodeEntry es) as [d| |] eqn:M; try discriminate Hc.
    destruct (mapM_Permutation encodeEntry es es1 Q0 d M) as (d1 & M1 & Pd).
    assert (H1 : Forall
                   (fun x => forall x' : Value * Value,
                        same_value (fst x) (fst x') /\
                        same_value (snd x) (snd x') ->
                        forall y, encodeEntry x = Ok y ->
                        exists y', encodeEntry x' = Ok y' /\
                                   code_equiv (fst y) (fst y') /\
                                   code_equiv (snd y) (snd y')) es1).
    { apply (Permutation_Forall Q0). eapply Forall_impl; [|exact H].
      intros [a b] [Ha Hb] [a' b'] [Ea Eb] y; unfold encodeEntry; simpl in *.
      destruct (constructValue a) as [ca| |] eqn:Ca; try discriminate.
      destruct (constructValue b) as [cb| |] eqn:Cb; try discriminate.
      intros [= <-].
      destruct (Ha a' Ea ca eq_refl) as (ca' & -> & Ra).
      destruct (Hb b' Eb cb eq_refl) as (cb' & -> & Rb).
      now exists (ca', cb'). }
    destruct (mapM_Forall2 encodeEntry _ _ es1 es' H1 F0 d1 M1)
      as (d' & -> & R).
    injection Hc as <-. eexists; split; [reflexivity|].
    apply code_equiv_composite. constructor.
    constructor; [|constructor]. now apply ce_Dict with (d1 := d1).
  - simpl in *.
    destruct (constructValue v) as [cv| |] eqn:Cv; try discriminate Hc.
    match goal with S : same_value v _ |- _ =>
      destruct (IHv _ S cv eq_refl) as (cv' & -> & R) end.
    injection Hc as <-. eexists; split; [reflexivity|].
    now apply (code_equiv_composite (jen.Op "&")).
  - match goal with F : Forall2 same_value _ _ |- _ => rename F into F0 end.
    rewrite constructValue_Slice in *.
    destruct (mapM constructValue l) as [cs| |] eqn:M; try discriminate Hc.
    destruct (mapM_Forall2 constructValue same_value code_equiv l l' H F0 cs M)
      as (cs' & -> & R).
    injection Hc as <-. eexists; split; [reflexivity|].
    apply code_equiv_composite. now constructor.
  - match goal with F : Forall2 _ fs _ |- _ => rename F into F0 end.
    rewrite constructValue_Struct in *.
    destruct (mapM encodeField _) as [d| |] eqn:M; try discriminate Hc.
    apply (Forall2_filter _ (@CanInterface Value)) in F0; [|tauto].
    assert (H1 : Forall
                   (fun x => forall x' : StructField Value,
                        FieldName x = FieldName x' /\
                        CanInterface x = CanInterface x' /\
                        same_value (FieldValue x) (FieldValue x') ->
                        forall y, encodeField x = Ok y ->
                        exists y', encodeField x' = Ok y' /\
                                   code_equiv (fst y) (fst y') /\
                                   code_equiv (snd y) (snd y'))
                   (filter (@CanInterface Value) fs)).
    { apply incl_Forall with (l1 := fs).
      - intros f Hf. apply filter_In in Hf. tauto.
      - eapply Forall_impl; [|exact H].
        intros f Hf f' (En & _ & Ev) y; unfold encodeField; cbv beta in Hf.
        destruct (constructValue (FieldValue f)) as [cf| |] eqn:Cf;
          try discriminate.
        intros [= <-].
        destruct (Hf _ Ev cf eq_refl) as (cf' & -> & R).
        eexists; split; [reflexivity|]. rewrite En.
        split; [apply code_equiv_refl | exact R]. }
    destruct (mapM_Forall2 encodeField _ _ _ _ H1 F0 d M) as (d' & -> & R).
    injection Hc as <-. eexists; split; [reflexivity|].
    apply code_equiv_composite. constructor.
    constructor; [|constructor].
    apply ce_Dict with (d1 := d); [apply Permutation_refl | exact R].
Qed.

(** X9.  Two runs on one value agree up to the order of the entries of
    the [Dict]s: when the first returns an expression, the second returns
    the same expression, whatever the order in which [MapKeys] lists the
    keys of the maps, at any depth. *)
Lemma runs_agree (v : Value) :
  forall v', same_value v v' ->
  forall c, constructValue v = Ok c ->
  exists c', constructValue v' = Ok c' /\ code_equiv c c'.
Proof. exact (same_value_Ok v). Qed.

Lemma forallb_Permutation {A : Type} (f : A -> bool) (l l' : list A) :
  Permutation l l' -> forallb f l = forallb f l'.
Proof.
  induction 1 as [|x l l' _ IH|x y l|l l' l'' _ IH1 _ IH2]; simpl.
  - reflexivity.
  - now rewrite IH.
  - now rewrite !andb_assoc, (andb_comm (f y)).
  - now rewrite IH1.
Qed.

Lemma forallb_Forall2 {A : Type} (R : A -> A -> Prop) (f : A -> bool)
      (l l' : list A) :
  Forall (fun x => forall y, R x y -> f x = f y) l ->
  Forall2 R l l' ->
  forallb f l = forallb f l'.
Proof.
  intros H F. induction F as [|x y r r' Rxy _ IH]; [reflexivity|].
  inversion H as [|? ? Hx Hr]; subst. simpl.
  now rewrite (Hx y Rxy), (IH Hr).
Qed.

(** The two values of two runs are supported together. *)
Lemma same_value_supported (v : Value) :
  forall v', same_value v v' -> supported v = supported v'.
Proof.
  induction v using Value_nested_ind; intros v' E;
    inversion E; subst; try reflexivity; simpl.
  - now apply (forallb_Forall2 same_value).
  - auto.
  - match goal with Q : Permutation es _ |- _ =>
      rewrite (forallb_Permutation _ _ _ Q);
      apply (Permutation_Forall Q) in H end.
    eapply forallb_Forall2; [|eassumption].
    eapply Forall_impl; [|exact H].
    intros [a b] [Ha Hb] [a' b'] [Ea Eb]; simpl in *.
    now rewrite (Ha _ Ea), (Hb _ Eb).
  - auto.
  - now apply (forallb_Forall2 same_value).
  - eapply forallb_Forall2; [|eassumption].
    eapply Forall_impl; [|exact H].
    intros f Hf f' (_ & Ec & Ev); cbv beta in Hf.
    now rewrite Ec, (Hf _ Ev).
Qed.

(** C9.  Two runs on one value differ by the order in which [MapKeys]
    lists the keys of its maps.  Whatever these orders, the two runs
    return an expression together or an error together, and the two
    expressions are the same up to the order of the entries of their
    [Dict]s, which only a map of two entries or more can show.  On a
    value all of whose maps are nil, empty or have one entry, the two
    runs return the same result, be it an expression or an error. *)
Theorem two_runs (v v' : Value) :
  same_value v v' ->
  (forall c, constructValue v = Ok c ->
     exists c', constructValue v' = Ok c' /\ code_equiv c c') /\
  (forall e, constructValue v = Err e ->
     exists e', constructValue v' = Err e') /\
  (small_maps v = true -> constructValue v = constructValue v').
Proof.
  intros E. split; [|split].
  - exact (same_value_Ok v v' E).
  - intros e He.
    destruct (constructValue v') as [c'|e'|] eqn:C'.
    + exfalso. apply constructValue_Ok_supported in C'.
      rewrite <- (same_value_supported v v' E) in C'.
      destruct (supported_Ok v C') as [c C]. rewrite C in He. discriminate He.
    + now exists e'.
    + now destruct (constructValue_no_panic v').
  - intros S. now rewrite (same_value_small_maps v v' S E).
Qed.

Lemma two_runs_witness :
  let one := VScalar "" "int" (B_int 1) in
  let two := VScalar "" "int" (B_int 2) in
  let a := VScalar "" "string" (B_string "a") in
  let b := VScalar "" "string" (B_string "b") in
  let m := VMap "" "" (TypeOf (B_int 0)) (TypeOf (B_string "")) in
  exists c',
    constructValue (m (Some [(two, b); (one, a)])) = Ok c' /\
    code_equiv
      (jen.Stmt
         [jen.Grp_Index [jen.Stmt [jen.Tok_Qual "" "int"]];
          jen.Stmt [jen.Tok_Qual "" "string"];
          jen.Grp_Values
            [jen.DictOf
               [(jen.Stmt [jen.Tok_Lit (B_int 1)],
                 jen.Stmt [jen.Tok_Lit (B_string "a")]);
                (jen.Stmt [jen.Tok_Lit (B_int 2)],
                 jen.Stmt [jen.Tok_Lit (B_string "b")])]]])
      c'.
Proof.
  intros one two a b m.
  destruct (two_runs (m (Some [(one, a); (two, b)]))
                     (m (Some [(two, b); (one, a)]))) as [H _].
  - apply sv_Map with (es1 := [(two, b); (one, a)]).
    + apply perm_swap.
    + repeat constructor.
  - apply H. reflexivity.
Defined.

(** With two entries the order matters for the error: the map
    [{"a": func, "b": chan}] returns the error of the entry met first. *)
Lemma two_entries_two_errors :
  let a := VScalar "" "string" (B_string "a") in
  let b := VScalar "" "string" (B_string "b") in
  let f := VInterface "" "" (Some (VFunc "" "")) in
  let c := VInterface "" "" (Some (VChan "" "" (TypeOf (B_int 0)))) in
  let m := VMap "" "" (TypeOf (B_string "")) (TInterface "" "") in
  same_value (m (Some [(a, f); (b, c)])) (m (Some [(b, c); (a, f)])) /\
  constructValue (m (Some [(a, f); (b, c)])) =
    Err "unsupport value kind func" /\
  constructValue (m (Some [(b, c); (a, f)])) =
    Err "unsupport value kind chan".
Proof.
  intros a b f c m. split; [|split; reflexivity].
  apply sv_Map with (es1 := [(b, c); (a, f)]).
  - apply perm_swap.
  - repeat constructor.
Qed.

(* ================================================================= *)
(** ** Arrays and the round trip *)

(** An array and the slice of the same elements encode alike: the type
    expression of [[N]T] is the one of [[]T]. *)
Lemma constructValue_Array_Slice p n t (elems : list Value) :
  constructValue (VArray p n t elems) =
  constructValue (VSlice p n t (Some elems)).
Proof.
  now rewrite constructValue_Array, constructValue_Slice.
Qed.

(** C1.  The array [[2]int{1, 2}] and the slice [[]int{1, 2}] are two
    values, of two kinds, and [constructValue] returns one expression,
    [[]int{1, 2}], for both.  Whatever running an expression yields, it
    cannot yield the array and the slice at once: the round trip fails on
    one of them. *)
Theorem round_trip_array_slice :
  let one := VScalar "" "int" (B_int 1) in
  let two := VScalar "" "int" (B_int 2) in
  let int := TypeOf (B_int 0) in
  let array := VArray "" "" int [one; two] in
  let slice := VSlice "" "" int (Some [one; two]) in
  let expr := jen.Stmt [jen.Grp_Index []; jen.Stmt [jen.Tok_Qual "" "int"];
                        jen.Grp_Values [jen.Stmt [jen.Tok_Lit (B_int 1)];
                                        jen.Stmt [jen.Tok_Lit (B_int 2)]]] in
  supported array = true /\ supported slice = true /\
  Value_Kind array = Array /\ Value_Kind slice = Slice /\
  constructValue array = Ok expr /\
  constructValue slice = Ok expr /\
  forall run : jen.Code -> option Value,
    ~ (run expr = Some array /\ run expr = Some slice).
Proof.
  intros one two int array slice expr.
  repeat split; try reflexivity.
  intros run [Ha Hs]. rewrite Ha in Hs. discriminate Hs.
Qed.

(* ================================================================= *)
(** ** The walk over the directories, step by step *)

Section Dir_induction.

Variable P : Dir -> Prop.

Hypothesis HUnreadable : forall err, P (Unreadable err).
Hypothesis HListing : forall files,
    Forall (fun e : string * option Dir =>
              match snd e with Some sub => P sub | None => True end) files ->
    P (Listing files).

Fixpoint Dir_nested_ind (tree : Dir) : P tree :=
  match tree with
  | Unreadable err => HUnreadable err
  | Listing files =>
      HListing files
        ((fix all (l : list (string * option Dir))
            : Forall (fun e : string * option Dir =>
                        match snd e with Some sub => P sub | None => True end)
                     l :=
            match l with
            | [] => Forall_nil _
            | (name, Some sub) :: r =>
                Forall_cons (name, Some sub) (Dir_nested_ind sub) (all r)
            | (name, None) :: r => Forall_cons (name, None) I (all r)
            end) files)
  end.

End Dir_induction.

Section Walk.

Variable filepath_Join : string -> string -> string.
Variable St : Type.
Variable f : string -> M St unit.

Lemma bindM_apply {A B : Type} (m : M St A) (k : A -> M St B) (s : St) :
  bindM m k s =
  match m s with
  | (Ok a, s') => k a s'
  | (Err e, s') => (Err e, s')
  | (Panic, s') => (Panic, s')
  end.
Proof. reflexivity. Qed.

Lemma run_app (evs evs' : list Event) (s : St) :
  run f (evs ++ evs') s = (run f evs >> run f evs') s.
Proof.
  revert s. induction evs as [|ev r IH]; intros s; simpl.
  - reflexivity.
  - rewrite !bindM_apply.
    destruct (step f ev s) as [[[]| |] s1]; try reflexivity.
    rewrite IH. now rewrite bindM_apply.
Qed.

(** The walk is the run of its steps. *)
Lemma walkDirs_run (tree : Dir) :
  forall (path : string) (s : St),
    walkDirs filepath_Join tree path f s =
    run f (events filepath_Join tree path) s.
Proof.
  induction tree as [err|files IH] using Dir_nested_ind; intros path s.
  - reflexivity.
  - simpl. rewrite !bindM_apply.
    destruct (f path s) as [[[]| |] s1]; try reflexivity.
    revert s1. induction IH as [|[name [sub|]] rest Hsub _ IHrest];
      intros s1.
    + reflexivity.
    + rewrite run_app, !bindM_apply.
      rewrite (Hsub (filepath_Join path name) s1).
      destruct (run f _ s1) as [[[]| |] s2]; try reflexivity.
      apply IHrest.
    + apply IHrest.
Qed.

(** X1.  [walkDirs] does what going through the directories one by one
    does: it calls the callback on each directory before the directories
    under it, on these in the order [ReadDir] lists them, never on a file
    that is no directory, and it stops at the first call of the callback
    or of [ReadDir] that returns an error, leaving the state reached
    there. *)
Theorem walkDirs_events (tree : Dir) (path : string) (s : St) :
  walkDirs filepath_Join tree path f s =
  run f (events filepath_Join tree path) s.
Proof. apply walkDirs_run. Qed.

(** When the steps taken all succeed, they are calls of the callback. *)
Lemma run_Ok (evs : list Event) :
  forall s s', run f evs s = (Ok tt, s') ->
  exists dirs, evs = map Visit dirs.
Proof.
  induction evs as [|ev r IH]; intros s s' H; simpl in H.
  - now exists [].
  - rewrite bindM_apply in H. destruct ev as [path|err]; simpl in H.
    + destruct (f path s) as [[[]| |] s1]; try discriminate H.
      destruct (IH _ _ H) as [dirs ->]. now exists (path :: dirs).
    + discriminate H.
Qed.

(** When the steps fail, one of them is the first to fail: the steps
    before it succeed, and the state is the one it leaves. *)
Lemma run_Err (evs : list Event) :
  forall s s' e, run f evs s = (Err e, s') ->
  exists before ev after s1,
    evs = before ++ ev :: after /\
    run f before s = (Ok tt, s1) /\
    step f ev s1 = (Err e, s').
Proof.
  induction evs as [|ev r IH]; intros s s' e H; simpl in H.
  - discriminate H.
  - rewrite bindM_apply in H.
    destruct (step f ev s) as [[[]| |] s1] eqn:E; try discriminate H.
    + destruct (IH _ _ _ H) as (before & ev' & after & s2 & -> & Hb & He).
      exists (ev :: before), ev', after, s2. repeat split; auto.
      simpl. now rewrite bindM_apply, E.
    + injection H as <- <-.
      exists [], ev, r, s. repeat split; auto.
Qed.

(** A walk without error has taken all its steps, calls of the callback. *)
Lemma walkDirs_Ok_run (tree : Dir) (path : string) (s s' : St) :
  walkDirs filepath_Join tree path f s = (Ok tt, s') ->
  exists dirs,
    events filepath_Join tree path = map Visit (path :: dirs) /\
    run f (map Visit (path :: dirs)) s = (Ok tt, s').
Proof.
  rewrite walkDirs_run. intros H.
  destruct (run_Ok _ _ _ H) as [dirs0 E].
  assert (D : exists dirs, dirs0 = path :: dirs).
  { destruct tree as [err|files], dirs0 as [|d dirs]; try discriminate E.
    injection E as -> _. now exists dirs. }
  destruct D as [dirs ->]. exists dirs.
  split; [exact E | rewrite <- E; exact H].
Qed.

(** X2.  When [walkDirs] returns no error, no [ReadDir] of the walk has
    failed, whatever the depth, and the callback has been called on every
    directory of the tree, the root first, and has returned no error. *)
Theorem walkDirs_Ok (tree : Dir) (path : string) (s s' : St) :
  walkDirs filepath_Join tree path f s = (Ok tt, s') ->
  exists dirs,
    events filepath_Join tree path = map Visit (path :: dirs) /\
    run f (map Visit (path :: dirs)) s = (Ok tt, s').
Proof. apply walkDirs_Ok_run. Qed.

(** X3.  [walkDirs] stops at the first step that fails: when the steps
    before a step all succeed and the step, a call of the callback or of
    [ReadDir], returns an error, [walkDirs] returns that error and leaves
    the state that step leaves; no later directory is read or visited. *)
Theorem walkDirs_fail_fast (tree : Dir) (path : string)
        (before : list Event) (ev : Event) (after : list Event)
        (s s1 s2 : St) (e : error) :
  events filepath_Join tree path = before ++ ev :: after ->
  run f before s = (Ok tt, s1) ->
  step f ev s1 = (Err e, s2) ->
  walkDirs filepath_Join tree path f s = (Err e, s2).
Proof.
  intros E Hb He. rewrite walkDirs_run, E, run_app, bindM_apply, Hb.
  simpl. now rewrite bindM_apply, He.
Qed.

End Walk.

(* ================================================================= *)
(** ** What generate saves *)

Section Generated.

Variables pkgName rootDir importFile : string.
Variable Package : Type.
Variable Package_Package : Package -> string.
Variable set_Path : Package -> string -> Package.
Variable ValueOf : Package -> Value.
Variable Check : Package -> Z.
Variable GetError : Package -> option error.
Variable ParseDir : string -> result (list (string * Package)).
Variable path_Join : string -> string -> string.
Variable path_Base : string -> string.
Variable filepath_Join : string -> string -> string.
Variable filepath_Rel : string -> string -> result string.
Variable Quote : string -> string.
Variable SaveError : string -> File -> option error.

Local Notation "'genDir'" :=
  (generateDir pkgName rootDir Package_Package set_Path ValueOf Check
     GetError ParseDir path_Join filepath_Join filepath_Rel Quote SaveError).
Local Notation "'gen'" :=
  (generate pkgName rootDir importFile Package_Package set_Path ValueOf
     Check GetError ParseDir path_Join path_Base filepath_Join filepath_Rel
     Quote SaveError).
Local Notation "'saved'" :=
  (savesOf rootDir Package_Package set_Path ValueOf Check ParseDir
     filepath_Join filepath_Rel).
Local Notation "'imports'" := (imported pkgName Check ParseDir path_Join).
Local Notation "'succeeded'" :=
  (Forall (fun c : string * File => SaveError (fst c) (snd c) = None)).

Ltac generateDir_cases :=
  unfold generateDir, savesOf, packageFile, imported, thePackage, lift,
    Save, ret, fail, Wrapf;
  rewrite ?bindM_apply; simpl;
  repeat match goal with
    | |- context [match ?x with _ => _ end] =>
        match type of x with
        | _ => destruct x eqn:?; simpl; rewrite ?bindM_apply; simpl
        end
    end.

(** One directory processed without error: its package, if it gets a
    file, is added to [goPackages] unless it is the root package, and its
    file is saved. *)
Lemma generateDir_Ok (dir : string) (s s' : GenState) :
  genDir dir s = (Ok tt, s') ->
  s' = mkGenState (goPackages s ++ imports dir) (saves s ++ saved [dir]) /\
  succeeded (saved [dir]).
Proof.
  destruct s as [gp sv].
  generateDir_cases; intros H; try discriminate H;
    injection H as <-; rewrite ?app_nil_r;
    repeat match goal with
      | E : (if ?b then _ else _) _ = _ |- _ => destruct b
      | E : (_, _) = (_, _) |- _ => injection E as ? ?; subst
      end;
    split; try reflexivity; repeat constructor; assumption.
Qed.


Lemma saved_cons (dir : string) (dirs : list string) :
  saved (dir :: dirs) = saved [dir] ++ saved dirs.
Proof. unfold savesOf. simpl. now rewrite app_nil_r. Qed.

Lemma run_generateDir_Ok (dirs : list string) :
  forall s s',
    run genDir (map Visit dirs) s = (Ok tt, s') ->
    s' = mkGenState (goPackages s ++ flat_map imports dirs)
                    (saves s ++ saved dirs) /\
    succeeded (saved dirs).
Proof.
  induction dirs as [|d r IH]; intros s s' H; simpl in H.
  - injection H as <-. destruct s; simpl. rewrite !app_nil_r.
    split; [reflexivity | constructor].
  - rewrite bindM_apply in H. simpl in H.
    destruct (genDir d s) as [[[]| |] s1] eqn:E; try discriminate H.
    apply generateDir_Ok in E as [-> Sd].
    apply IH in H as [-> Sr].
    rewrite (saved_cons d r). cbn [goPackages saves flat_map].
    rewrite !app_assoc. split; [reflexivity|].
    apply Forall_app. now split.
Qed.


(** One directory processed without error: if it holds one package that
    [ast.Check] accepts, the package has been encoded and its file
    saved. *)
Lemma generateDir_Ok_file (dir : string) (s s' : GenState) (pkg : Package) :
  genDir dir s = (Ok tt, s') ->
  thePackage Check ParseDir dir = Some pkg ->
  exists path v,
    filepath_Rel rootDir dir = Ok path /\
    constructValue (ValueOf (set_Path pkg path)) = Ok v /\
    packageFile rootDir Package_Package set_Path ValueOf Check ParseDir
                filepath_Join filepath_Rel dir =
    Some (filepath_Join dir "flux_gen.go",
          packageFileOf Package_Package (set_Path pkg path) v).
Proof.
  destruct s as [gp sv].
  generateDir_cases; intros H; try discriminate H;
    intros P; try discriminate P; injection P as <-;
    repeat match goal with
      | E : (if ?b then _ else _) _ = _ |- _ => destruct b
      | E : (_, _) = (_, _) |- _ => injection E as ? ?; subst
      end;
    try discriminate;
    eexists; eexists; repeat split; congruence.
Qed.

Lemma run_generateDir_Ok_file (dirs : list string) :
  forall s s',
    run genDir (map Visit dirs) s = (Ok tt, s') ->
    Forall
      (fun dir =>
         forall pkg, thePackage Check ParseDir dir = Some pkg ->
         exists path v,
           filepath_Rel rootDir dir = Ok path /\
           constructValue (ValueOf (set_Path pkg path)) = Ok v /\
           packageFile rootDir Package_Package set_Path ValueOf Check
                       ParseDir filepath_Join filepath_Rel dir =
           Some (filepath_Join dir "flux_gen.go",
                 packageFileOf Package_Package (set_Path pkg path) v))
      dirs.
Proof.
  induction dirs as [|d r IH]; intros s s' H; simpl in H; constructor.
  - rewrite bindM_apply in H. simpl in H.
    destruct (genDir d s) as [[[]| |] s1] eqn:E; try discriminate H.
    intros pkg. exact (generateDir_Ok_file d s s1 pkg E).
  - rewrite bindM_apply in H. simpl in H.
    destruct (genDir d s) as [[[]| |] s1] eqn:E; try discriminate H.
    exact (IH _ _ H).
Qed.

(** X4.  When [generate] returns no error, every directory of the tree
    has been read and processed.  For each directory that holds one
    package that [ast.Check] accepts, [filepath.Rel] and [constructValue]
    have succeeded and [Save] has been called with [flux_gen.go] in that
    directory and the file that registers [pkgAST] and sets it to the
    expression [constructValue] returns for the package, its [Path] set;
    these calls are made in the order of the walk.  Then [Save] has been
    called for the import file, which imports the Go packages of these
    directories, the root package left out, in the same order.  No other
    call of [Save] is made, and none returns an error. *)
Theorem generate_Ok (tree : Dir) (calls : list (string * File)) :
  fst (gen tree calls) = Ok tt ->
  exists dirs,
    events filepath_Join tree rootDir = map Visit (rootDir :: dirs) /\
    Forall
      (fun dir =>
         forall pkg, thePackage Check ParseDir dir = Some pkg ->
         exists path v,
           filepath_Rel rootDir dir = Ok path /\
           constructValue (ValueOf (set_Path pkg path)) = Ok v /\
           packageFile rootDir Package_Package set_Path ValueOf Check
                       ParseDir filepath_Join filepath_Rel dir =
           Some (filepath_Join dir "flux_gen.go",
                 packageFileOf Package_Package (set_Path pkg path) v))
      (rootDir :: dirs) /\
    snd (gen tree calls) =
      calls ++ saved (rootDir :: dirs) ++
      [(filepath_Join rootDir importFile,
        importFileOf pkgName path_Base
                     (flat_map imports (rootDir :: dirs)))] /\
    succeeded
      (saved (rootDir :: dirs) ++
       [(filepath_Join rootDir importFile,
         importFileOf pkgName path_Base
                      (flat_map imports (rootDir :: dirs)))]).
Proof.
  unfold generate.
  destruct (walkDirs _ tree rootDir genDir (mkGenState [] calls))
    as [[[]| |] s] eqn:W; try discriminate.
  apply walkDirs_Ok_run in W as (dirs & E & R).
  pose proof (run_generateDir_Ok_file _ _ _ R) as F.
  apply run_generateDir_Ok in R as [-> Sd]. simpl in Sd |- *.
  destruct (SaveError _ _) eqn:Si; try discriminate. intros _.
  exists dirs. repeat split; auto.
  - now rewrite <- !app_assoc.
  - apply Forall_app. split; [assumption|]. now repeat constructor.
Qed.


End Generated.

Lemma walkDirs_Ok_witness :
  exists dirs,
    events Example.join Example.tree "root" = map Visit ("root" :: dirs) /\
    run (Example.visit "") (map Visit ("root" :: dirs)) [] =
    (Ok tt, ["root"; "root/a"; "root/a/sub"; "root/c"]).
Proof.
  apply (walkDirs_Ok Example.join (list string) (Example.visit "")
           Example.tree "root" []).
  reflexivity.
Defined.

Lemma walkDirs_fail_fast_witness :
  walkDirs Example.join Example.tree_denied "root" (Example.visit "") [] =
  (Err "permission denied", ["root"; "root/a"; "root/a/sub"]).
Proof.
  apply (walkDirs_fail_fast Example.join (list string) (Example.visit "")
           Example.tree_denied "root"
           [Visit "root"; Visit "root/a"; Visit "root/a/sub"]
           (ReadError "permission denied")
           [Visit "root/c"]
           [] ["root"; "root/a"; "root/a/sub"]);
    reflexivity.
Defined.

Lemma generate_Ok_witness :
  exists dirs,
    events Example.Join Example.tree "." = map Visit ("." :: dirs) /\
    map fst (snd (Example.generate Example.tree [])) =
    ["flux_gen.go"; "a/flux_gen.go"; "builtin_gen.go"] /\
    map (fun c => Anons (snd c)) (snd (Example.generate Example.tree [])) =
    [[]; []; ["flux/a"]].
Proof.
  destruct (generate_Ok "flux" "." "builtin_gen.go" Example.Package
              (fun pkg => fst pkg) (fun pkg path => (fst pkg, path))
              Example.ValueOf (fun _ => 0%Z) (fun _ => None)
              Example.ParseDir Example.Join (fun p => p) Example.Join
              (fun root dir => Ok dir) Example.Quote (fun _ _ => None)
              Example.tree [] eq_refl) as (dirs & E & _).
  exists dirs. split; [exact E | split; reflexivity].
Defined.


(* ================================================================= *)
(** ** More on the expressions *)

Lemma indirectType_TypeExpr (typ : Type_) : TypeExpr (indirectType typ).
Proof.
  induction typ; simpl; try apply TE_Qual.
  - now apply TE_Seq.
  - now apply TE_Map.
  - now apply TE_Ptr.
  - now apply TE_Seq.
Qed.

(** X6.  [constructValue] returns the [nil] literal for the nil slices,
    maps, pointers and interfaces, and for the interfaces that hold one
    of these, and for no other value: the kind and the type of a nil
    value leave no trace in the expression. *)
Theorem nil_literal (v : Value) :
  constructValue v = Ok (jen.Stmt jen.Nil) <-> is_nil v = true.
Proof.
  induction v using Value_nested_ind; simpl is_nil;
    try (split; intros E; [discriminate E | discriminate E]);
    try (split; reflexivity).
  - rewrite constructValue_Scalar. split; discriminate.
  - rewrite constructValue_Array.
    destruct (mapM constructValue l); simpl; split; discriminate.
  - simpl. assumption.
  - rewrite constructValue_Map.
    destruct (mapM encodeEntry es); simpl; split; discriminate.
  - simpl. destruct (constructValue v); simpl; split; discriminate.
  - rewrite constructValue_Slice.
    destruct (mapM constructValue l); simpl; split; discriminate.
  - rewrite constructValue_Struct.
    destruct (mapM encodeField _); simpl; split; discriminate.
Qed.

(** X7.  The literal of a scalar keeps the payload and the basic type it
    is of, width included, and nothing of a defined type's name: two
    scalars encode alike exactly when they have the same payload of the
    same basic type. *)
Theorem scalar_literal (p n p' n' : string) (b b' : Basic) :
  constructValue (VScalar p n b) = Ok (jen.Stmt [jen.Tok_Lit b]) /\
  (constructValue (VScalar p n b) = constructValue (VScalar p' n' b') <->
   b = b').
Proof.
  rewrite !constructValue_Scalar. split; [reflexivity|].
  split; [intros [= ->] | intros ->]; reflexivity.
Qed.

Lemma mapM_Err_In {A B : Type} (f : A -> result B) (l : list A) (e : error) :
  mapM f l = Err e -> exists x, In x l /\ f x = Err e.
Proof.
  induction l as [|x r IH]; simpl; [discriminate|].
  destruct (f x) as [y|e'|] eqn:E; simpl; try discriminate.
  - destruct (mapM f r); simpl; try discriminate.
    intros [= <-]. destruct (IH eq_refl) as (z & Hz & Ez).
    exists z. auto.
  - intros [= <-]. exists x. auto.
Qed.

(** Every error comes from the default case. *)
Lemma constructValue_Err (v : Value) :
  forall e, constructValue v = Err e ->
  exists k, has_rule k = false /\ e = unsupported k.
Proof.
  induction v using Value_nested_ind; intros e E;
    try (injection E as <-; eexists; split; [|reflexivity]; reflexivity);
    try discriminate E.
  - rewrite constructValue_Scalar in E. discriminate E.
  - rewrite constructValue_Array in E.
    destruct (mapM constructValue l) eqn:M; try discriminate E.
    injection E as <-. apply mapM_Err_In in M as (x & Hx & Ex).
    rewrite Forall_forall in H. exact (H x Hx _ Ex).
  - simpl in E. auto.
  - rewrite constructValue_Map in E.
    destruct (mapM encodeEntry es) eqn:M; try discriminate E.
    injection E as <-. apply mapM_Err_In in M as ([a b] & Hx & Ex).
    rewrite Forall_forall in H. destruct (H _ Hx) as [Ha Hb].
    unfold encodeEntry in Ex; simpl in *.
    destruct (constructValue a) eqn:Ca; simpl in Ex; try discriminate Ex.
    + destruct (constructValue b) eqn:Cb; simpl in Ex; try discriminate Ex.
      injection Ex as <-. now apply Hb.
    + injection Ex as <-. now apply Ha.
  - simpl in E. destruct (constructValue v) eqn:C; try discriminate E.
    injection E as <-. now apply IHv.
  - rewrite constructValue_Slice in E.
    destruct (mapM constructValue l) eqn:M; try discriminate E.
    injection E as <-. apply mapM_Err_In in M as (x & Hx & Ex).
    rewrite Forall_forall in H. exact (H x Hx _ Ex).
  - rewrite constructValue_Struct in E.
    destruct (mapM encodeField _) eqn:M; try discriminate E.
    injection E as <-. apply mapM_Err_In in M as (f & Hf & Ef).
    apply filter_In in Hf as [Hf _].
    rewrite Forall_forall in H. unfold encodeField in Ef.
    destruct (constructValue (FieldValue f)) eqn:C; try discriminate Ef.
    injection Ef as <-. exact (H f Hf _ C).
Qed.

(** X8.  On a value as [Value] has it, that is a finite tree of finite
    types, read from a value that can be read, each map with the values
    [MapIndex] gives for its keys, [constructValue] does not panic and
    returns an expression or the error of the default case: an expression
    when every component it reaches has a kind with a rule, and otherwise
    the error for a kind without a rule, which is invalid (the zero
    Value, which [MapIndex] gives for a NaN key), chan, func or
    unsafe.Pointer. *)
Theorem constructValue_outcome (v : Value) :
  (supported v = true /\ exists c, constructValue v = Ok c) \/
  (supported v = false /\
   exists k, has_rule k = false /\ constructValue v = Err (unsupported k)).
Proof.
  destruct (constructValue v) as [c|e|] eqn:E.
  - left. split; [exact (constructValue_Ok_supported v c E) | now exists c].
  - right. destruct (constructValue_Err v e E) as (k & Hk & ->). split.
    + destruct (supported v) eqn:S; [|reflexivity].
      destruct (supported_Ok v S) as [c C]. rewrite C in E. discriminate E.
    + now exists k.
  - now destruct (constructValue_no_panic v).
Qed.

Lemma Forall2_Forall_r {A B : Type} (R : A -> B -> Prop) (P : B -> Prop)
      (l : list A) (l' : list B) :
  Forall (fun x => forall y, R x y -> P y) l ->
  Forall2 R l l' ->
  Forall P l'.
Proof.
  intros H F. induction F as [|x y r r' Rxy _ IH]; constructor;
    inversion H; subst; auto.
Qed.

(** X10.  Every expression [constructValue] returns is of one of six
    forms: the [nil] literal; a literal of a basic type; [&] before an
    expression; the type expression of a sequence before a [Values] group
    of expressions; the type expression of a map before a [Values] group
    that holds one [Dict] from expressions to expressions; or a qualified
    name before a [Values] group that holds one [Dict] from field names
    to expressions. *)
Theorem constructValue_ValueExpr (v : Value) :
  forall c, constructValue v = Ok c -> ValueExpr c.
Proof.
  induction v using Value_nested_ind; intros c E;
    try discriminate E;
    try (injection E as <-; apply VE_Nil).
  - rewrite constructValue_Scalar in E. injection E as <-. apply VE_Lit.
  - rewrite constructValue_Array in E.
    destruct (mapM constructValue l) as [cs| |] eqn:M; try discriminate E.
    injection E as <-. apply mapM_Ok in M.
    apply VE_Seq; [apply indirectType_TypeExpr|].
    exact (Forall2_Forall_r _ _ l cs H M).
  - simpl in E. auto.
  - rewrite constructValue_Map in E.
    destruct (mapM encodeEntry es) as [d| |] eqn:M; try discriminate E.
    injection E as <-. apply mapM_encodeEntry_Ok in M.
    apply VE_Map; try apply indirectType_TypeExpr.
    apply (Forall2_Forall_r _ _ es d) with (2 := M).
    eapply Forall_impl; [|exact H].
    intros [a b] [Ha Hb] [ca cb] [Ea Eb]; simpl in *. auto.
  - simpl in E.
    destruct (constructValue v) as [cv| |] eqn:C; try discriminate E.
    injection E as <-. apply VE_Addr. auto.
  - rewrite constructValue_Slice in E.
    destruct (mapM constructValue l) as [cs| |] eqn:M; try discriminate E.
    injection E as <-. apply mapM_Ok in M.
    apply VE_Seq; [apply indirectType_TypeExpr|].
    exact (Forall2_Forall_r _ _ l cs H M).
  - rewrite constructValue_Struct in E.
    destruct (mapM encodeField _) as [d| |] eqn:M; try discriminate E.
    injection E as <-. apply mapM_Ok in M.
    apply VE_Struct.
    apply (Forall2_Forall_r _ _ _ d) with (2 := M).
    apply incl_Forall with (l1 := fs).
    + intros f Hf. apply filter_In in Hf. tauto.
    + eapply Forall_impl; [|exact H].
      intros f Hf [k c] Ef; unfold encodeField in Ef; cbv beta in Hf.
      destruct (constructValue (FieldValue f)) as [cf| |] eqn:C;
        try discriminate Ef.
      injection Ef as <- <-. split; [now eexists | auto].
Qed.

Lemma constructValue_ValueExpr_witness :
  ValueExpr
    (jen.Stmt
       [jen.Tok_Op "&";
        jen.Stmt [jen.Tok_Qual "main" "T";
                  jen.Grp_Values
                    [jen.DictOf
                       [(jen.Stmt [jen.Tok_Id "A"],
                         jen.Stmt [jen.Grp_Index [];
                                   jen.Stmt [jen.Tok_Qual "" "int"];
                                   jen.Grp_Values
                                     [jen.Stmt [jen.Tok_Lit (B_int 1)]]])]]]]).
Proof.
  apply (constructValue_ValueExpr
           (VPtr "" "" (TStruct "main" "T")
              (Some (VStruct "main" "T"
                       [ mkField "A" true
                           (VSlice "" "" (TypeOf (B_int 0))
                              (Some [VScalar "" "int" (B_int 1)]));
                         mkField "b" false (VFunc "" "") ])))).
  reflexivity.
Defined.

(** X11.  Two types have the same type expression exactly when they have
    the same shape: the expression tells a map, a pointer and a sequence
    apart and keeps the qualified names at the leaves, and it keeps
    neither the length of an array, nor whether a sequence is an array or
    a slice, nor the name of a defined map, pointer, array or slice
    type, nor the kind of a named type. *)
Theorem indirectType_shape (t : Type_) :
  forall t', indirectType t = indirectType t' <-> shape t = shape t'.
Proof.
  induction t; intros t'; destruct t'; simpl;
    (split; intros E; try discriminate E; try injection E as E);
    try reflexivity; try (injection E as -> ->; reflexivity);
    try congruence;
    repeat match goal with
      | IH : forall t', indirectType ?t = indirectType t' <-> _,
        H : indirectType ?t = indirectType ?u |- _ =>
          apply IH in H; rewrite H; clear H
      | IH : forall t', indirectType ?t = indirectType t' <-> _,
        H : shape ?t = shape ?u |- _ =>
          apply IH in H; rewrite H; clear H
      end;
    reflexivity.
Qed.

Lemma runs_agree_witness :
  let one := VScalar "" "int" (B_int 1) in
  let two := VScalar "" "int" (B_int 2) in
  let a := VScalar "" "string" (B_string "a") in
  let b := VScalar "" "string" (B_string "b") in
  let m := VMap "" "" (TypeOf (B_int 0)) (TypeOf (B_string "")) in
  exists c',
    constructValue (m (Some [(two, b); (one, a)])) = Ok c' /\
    code_equiv
      (jen.Stmt
         [jen.Grp_Index [jen.Stmt [jen.Tok_Qual "" "int"]];
          jen.Stmt [jen.Tok_Qual "" "string"];
          jen.Grp_Values
            [jen.DictOf
               [(jen.Stmt [jen.Tok_Lit (B_int 1)],
                 jen.Stmt [jen.Tok_Lit (B_string "a")]);
                (jen.Stmt [jen.Tok_Lit (B_int 2)],
                 jen.Stmt [jen.Tok_Lit (B_string "b")])]]])
      c'.
Proof.
  intros one two a b m.
  apply (runs_agree (m (Some [(one, a); (two, b)]))
                    (m (Some [(two, b); (one, a)]))).
  - apply sv_Map with (es1 := [(two, b); (one, a)]).
    + apply perm_swap.
    + repeat constructor.
  - reflexivity.
Defined.

(** X12.  The table [types] and the scalar case of the switch agree: the
    table has an entry for a kind exactly when the case lists the kind,
    and the entry is the predeclared type of that kind, with an empty
    package path and the name of the kind. *)
Theorem types_scalar_case (k : Kind) :
  (In k scalar_case <-> exists typ, lookup types k = Some typ) /\
  (forall typ, lookup types k = Some typ ->
     Type_Kind typ = k /\ PkgPath typ = "" /\ Name typ = Kind_String k).
Proof.
  split; [split|].
  - intros H. apply scalar_case_spec in H as [s ->].
    exists (basicType s). apply types_lookup.
  - intros [typ H]. apply scalar_case_spec.
    destruct k as [|s| | | | | | | | |]; try discriminate H. now exists s.
  - intros typ H.
    destruct k as [|s| | | | | | | | |]; try discriminate H.
    rewrite types_lookup in H. injection H as <-. now repeat split.
Qed.
